(** * gpt-commit-msg: the recursive diff summariser

    A shallow embedding of [src/gpt_commit_msg.py]: the token-budget table,
    the three splitting patterns of the delimiter ladder together with
    Python's [re.split] and [re.match] on them, the recombination and
    chunking loops of [summarize], and the compression driver
    [commit_message].

    The LLM client is external.  [llm.get_num_tokens] is a pure function
    of the text; [llm.ask] is an oracle whose answer may depend on every
    event that happened before.  Each call of [llm.ask] and each [logging]
    call of [commit_message] is recorded in a trace, so that "which
    requests were sent, and in which order" is part of what a run returns.

    Texts are strings of bytes; the three patterns only look at ASCII
    characters, so a text in UTF-8 is split where Python splits it.  The
    client is taken to answer every request: its own failures, and
    [main] with its argument parsing and line wrapping, are not part of
    the model.  [args.model] is a parameter. *)

From Stdlib Require Import ZArith Ascii String Lia.
From stdpp Require Import gmap strings list.

Local Open Scope Z_scope.

(** ** Text *)

(** The line feed character, ["\n"] in the source. *)
Definition LF : ascii := "010"%char.
Definition nl : string := String LF "".

(** [sep.join(l)] *)
Definition join (sep : string) (l : list string) : string := String.concat sep l.
Arguments join : simpl never.

(** [text[n:]] *)
Fixpoint string_drop (n : nat) (text : string) : string :=
  match n, text with
  | O, _ => text
  | S n', String _ text' => string_drop n' text'
  | S _, EmptyString => ""
  end.

(** ** The patterns of the delimiter ladder and Python's [re] on them *)

Module Re.

(** The three regular expressions that occur in [splitre]. *)
Inductive pattern :=
| Diff      (* r"^(diff )" *)
| Blank     (* "^$" *)
| Newline.  (* "\n" *)

(** [^]: start of the string, and with [re.MULTILINE] also right after a
    line feed.  [prev] is the character before the position. *)
Definition at_line_start (multiline : bool) (prev : option ascii) : bool :=
  match prev with
  | None => true
  | Some c => multiline && Ascii.eqb c LF
  end.

(** [$]: end of the string or just before the line feed that ends the
    string, and with [re.MULTILINE] before every line feed.  [s] is the
    text from the position on. *)
Definition at_line_end (multiline : bool) (s : string) : bool :=
  match s with
  | EmptyString => true
  | String c s' =>
      Ascii.eqb c LF && (multiline || match s' with EmptyString => true | _ => false end)
  end.

(** The length of the match of [p] that starts at a position, if there is
    one.  Each of the three patterns matches at most one length there. *)
Definition match_at (multiline : bool) (p : pattern)
    (prev : option ascii) (s : string) : option nat :=
  match p with
  | Diff =>
      if at_line_start multiline prev && String.prefix "diff " s
      then Some 5%nat else None
  | Blank =>
      if at_line_start multiline prev && at_line_end multiline s
      then Some 0%nat else None
  | Newline =>
      if String.prefix nl s then Some 1%nat else None
  end.

(** The text of the capturing groups of a match: [re.split] puts it into
    its result.  Only [^(diff )] has a group. *)
Definition groups (p : pattern) : list string :=
  match p with
  | Diff => ["diff "]
  | Blank | Newline => []
  end.

(** For [^(diff )] and [^$] the groups of a match spell out all of the
    matched text; ["\n"] has no group, so [re.split] drops what it
    matched. *)
Definition keeps_delimiter (p : pattern) : bool :=
  match p with
  | Diff | Blank => true
  | Newline => false
  end.

(** Put a character in front of the piece that is being read. *)
Definition push (c : ascii) (pieces : list string) : list string :=
  match pieces with
  | [] => [String c ""]
  | piece :: rest => String c piece :: rest
  end.

(** [re.split(p, text, flags=re.MULTILINE)], scanning from a position with
    [s] still to read.  [skip] counts the characters of the current match
    that are still to be passed over.  A match ends the piece being read;
    after an empty match the scan moves on by one character before it
    matches again, as CPython does since 3.7. *)
Fixpoint split_from (p : pattern) (prev : option ascii) (skip : nat)
    (s : string) : list string :=
  match skip with
  | S k =>
      match s with
      | EmptyString => [""]
      | String c s' => split_from p (Some c) k s'
      end
  | O =>
      match match_at true p prev s with
      | Some (S k) =>
          "" :: groups p ++
            match s with
            | EmptyString => [""]
            | String c s' => split_from p (Some c) k s'
            end
      | Some O =>
          match s with
          | EmptyString => [""; ""]
          | String c s' => "" :: push c (split_from p (Some c) O s')
          end
      | None =>
          match s with
          | EmptyString => [""]
          | String c s' => push c (split_from p (Some c) O s')
          end
      end
  end.

Definition split (p : pattern) (text : string) : list string :=
  split_from p None O text.

(** [re.match(p, part)] as a truth value: no flags, anchored at the start
    of [part]. *)
Definition matches (p : pattern) (part : string) : bool :=
  match match_at false p None part with
  | Some _ => true
  | None => false
  end.

End Re.

(** [combined_parts[-1] += part].  The loop below only gets here with a
    non-empty list. *)
Fixpoint add_to_last (combined_parts : list string) (part : string) : list string :=
  match combined_parts with
  | [] => []
  | [x] => [x +:+ part]
  | x :: rest => x :: add_to_last rest part
  end.

(** Lines 65-72: glue every piece that does not itself start with the
    pattern onto the piece before it. *)
Fixpoint recombine (p : Re.pattern) (parts combined_parts : list string)
    : list string :=
  match parts with
  | [] => combined_parts
  | part :: rest =>
      if Re.matches p part || bool_decide (combined_parts = [])
      then recombine p rest (combined_parts ++ [part])
      else recombine p rest (add_to_last combined_parts part)
  end.

(** Lines 64-73: the parts [summarize] chunks. *)
Definition split_parts (p : Re.pattern) (text : string) : list string :=
  recombine p (Re.split p text) [].

(** ** Effects: the trace of LLM requests and log records, exceptions *)

(** What a run does that the outside can see. *)
Inductive event :=
| Ask (query : string)           (* llm.ask(query) *)
| Info_tokens (tcount : Z)       (* logging.info(f"tokens: {tcount}") *)
| Info_sending (query : string)  (* logging.info(f"Sending prompt + diff:\n{...}") *)
| Warning_too_long (tcount : Z). (* logging.warning(f"diff too long. ...") *)

(** The Python exceptions the code can raise by itself: a failed lookup
    in [max_token_count] and an index into an empty [splitre]. *)
Inductive exn :=
| KeyError (key : string)
| IndexError.

(** How a run ends.  [OutOfFuel] stands for a [while True] loop that was
    cut off; it is not a value the program returns. *)
Inductive outcome (A : Type) :=
| Ok (a : A)
| Raise (e : exn)
| OutOfFuel.
Arguments Ok {A} a.
Arguments Raise {A} e.
Arguments OutOfFuel {A}.

(** A computation reads the trace so far and returns how it ends together
    with the extended trace. *)
Definition M (A : Type) : Type := list event -> outcome A * list event.

Definition ret {A} (a : A) : M A := fun tr => (Ok a, tr).
Definition raise {A} (e : exn) : M A := fun tr => (Raise e, tr).
Definition out_of_fuel {A} : M A := fun tr => (OutOfFuel, tr).
Definition bind {A B} (m : M A) (k : A -> M B) : M B :=
  fun tr =>
    match m tr with
    | (Ok a, tr') => k a tr'
    | (Raise e, tr') => (Raise e, tr')
    | (OutOfFuel, tr') => (OutOfFuel, tr')
    end.
Definition emit (e : event) : M unit := fun tr => (Ok tt, tr ++ [e]).

Notation "'let*' x := m 'in' k" := (bind m (fun x => k))
  (at level 10, x name, m at level 100, k at level 200).

(** ** The program *)

(** [max_token_count], lines 14-17. *)
Definition max_token_count : gmap string Z :=
  {[ "gpt-4" := 8192; "gpt-3.5-turbo" := 4097 ]}.

(** The default of [splitre]: first [diff ] headers, then blank lines,
    then line feeds. *)
Definition default_splitre : list Re.pattern := [Re.Diff; Re.Blank; Re.Newline].

(** The default of [prompt] in [summarize]. *)
Definition summarize_prompt : string :=
  "Make an unordered list of the effects of every change in this diff." +:+ nl +:+ nl.

(** The prompt of the compression passes, line 41, as it is typed there. *)
Definition compress_prompt : string :=
  "Make an unordered list that summarizes the changes described below.n" +:+ nl.

Definition more_detail : string := "## More Detail".

(** The state of the chunking loop of [summarize]. *)
Record loop_state := LoopState {
  chunk : list string;
  chunk_tcount : Z;
  summaries : list string
}.

(** ** The specification's reading of the loops *)

(** The ChunkAssembler of the specification (section 4.3), written from
    its words: parts are added to the current chunk while the running
    total with the next part stays under the budget; when the next part
    would reach or exceed it, the current chunk is closed and the part
    starts a new one. *)
Fixpoint assemble (tokens : string -> Z) (budget : Z) (current : list string)
    (total : Z) (parts : list string) : list (list string) :=
  match parts with
  | [] => [current]
  | part :: rest =>
      if total + tokens part <? budget
      then assemble tokens budget (current ++ [part]) (total + tokens part) rest
      else current :: assemble tokens budget [part] (tokens part) rest
  end.

Definition ChunkAssembler (tokens : string -> Z) (budget : Z)
    (parts : list string) : list (list string) :=
  match parts with
  | [] => []
  | part :: rest => assemble tokens budget [part] (tokens part) rest
  end.

(** The result document of the specification (section 4.5): every
    compression pass puts its summaries and a heading above what was
    there. [layers] are the summaries of the compression passes in the
    order they were made. *)
Definition prepend_layers (layers : list (list string)) (result : list string)
    : list string :=
  fold_left (fun result summaries => summaries ++ [more_detail] ++ result)
    layers result.

(** How many sections of a document are the heading. *)
Definition headings (sections : list string) : nat :=
  length (filter (fun x => x = more_detail) sections).

(** ** Notions the further properties are stated with *)

(** [text] without its line feeds. *)
Fixpoint remove_lf (text : string) : string :=
  match text with
  | EmptyString => ""
  | String c text' =>
      if Ascii.eqb c LF then remove_lf text' else String c (remove_lf text')
  end.

(** [piece] occurs in [text] as it is, in one stretch. *)
Definition substring (piece text : string) : Prop :=
  exists before after, text = before +:+ piece +:+ after.

(** The last character of a text. *)
Fixpoint last_char (text : string) : option ascii :=
  match text with
  | EmptyString => None
  | String c EmptyString => Some c
  | String _ text' => last_char text'
  end.

(** [chunk] is a run of neighbours of [parts]. *)
Definition run_of (chunk parts : list string) : Prop :=
  exists before after, parts = before ++ chunk ++ after.

(** The chunks of a list, each with the part that starts the next chunk:
    whenever a chunk is followed by another one, [ok] holds of the chunk
    and the first part of its successor. *)
Fixpoint boundaries (ok : list string -> string -> Prop)
    (chunks : list (list string)) : Prop :=
  match chunks with
  | [] => True
  | c :: rest =>
      match rest with
      | [] => True
      | [] :: _ => False
      | (part :: _) :: _ => ok c part
      end /\ boundaries ok rest
  end.

(** ** The log file and the command line *)

(** [log], lines 19-22.  The files are a map from paths to what they
    hold; opening for appending creates a file that is not there.  A
    [Path] is never false, so [if path] asks whether there is one. *)
Definition log (path : option string) (text : string)
    (files : gmap string string) : gmap string string :=
  match path with
  | None => files
  | Some p => <[p := default "" (files !! p) +:+ (text +:+ nl)]> files
  end.

(** [log(path, text)] for each of [texts] in turn. *)
Definition log_all (path : option string) (texts : list string)
    (files : gmap string string) : gmap string string :=
  fold_left (fun files text => log path text files) texts files.

(** [len(text)]: Python counts the characters of a text; in UTF-8 these
    are the bytes that do not continue a character, the ones that are not
    of the form [10xxxxxx]. *)
Definition continues_character (c : ascii) : bool :=
  match c with
  | Ascii _ _ _ _ _ _ b6 b7 => b7 && negb b6
  end.

Fixpoint py_len (text : string) : nat :=
  match text with
  | EmptyString => O
  | String c text' =>
      if continues_character c then py_len text' else S (py_len text')
  end.

(** What [main] reads of the parsed command line.  [--git] only chooses
    where the diff is read from, [--temperature] and [--verbose] only
    reach the client, and [--logfile] only says where the log goes. *)
Record arguments := ParsedArguments {
  gpt4 : bool;
  prompt : string;
  quiet : bool
}.

(** What a run of [main] does that the outside can see. *)
Inductive output :=
| Print (line : string)            (* print(line) *)
| Log_args                         (* logging.info(f"Got args: {args}") *)
| Log_returned (message : string)  (* logging.info(f"GPT returned:\n{message}") *)
| Core (e : event).                (* what [commit_message] does *)

(** Lines 160-162: the message, wrapped paragraph by paragraph.
    [splitlines] is [str.splitlines] and [wrap] is [textwrap.wrap]. *)
Definition wrap_message (splitlines wrap : string -> list string)
    (message : string) : string :=
  let paragraphs := splitlines message in
  let wrapped_paragraphs := map wrap paragraphs in
  join nl (map (join nl) wrapped_paragraphs).

(** [main], lines 94-167, from the diff that was read on.  [run model] is
    [commit_message] with the client that line 155 makes for the model
    and with [args.model = model]; [counter_string] is
    [llm.counter_string()] after the requests of the run.  The outcome
    holds the exit code. *)
Definition main (run : string -> nat -> string -> string -> M string)
    (splitlines wrap : string -> list string)
    (counter_string : list event -> string)
    (args : arguments) (diff : string) (fuel : nat)
    : outcome Z * list output :=
  if (py_len diff <? 5)%nat then (Ok 1, [Print "Empty diff."])
  else
    let model := if gpt4 args then "gpt-4" else "gpt-3.5-turbo" in
    match run model fuel diff (prompt args) [] with
    | (Ok message, tr) =>
        let wrapped := wrap_message splitlines wrap message in
        (Ok 0,
         [Log_args] ++ map Core tr ++ [Log_returned message; Print wrapped]
         ++ (if quiet args then []
             else [Print ("(" +:+ counter_string tr +:+ ")")]))
    | (Raise e, tr) => (Raise e, [Log_args] ++ map Core tr)
    | (OutOfFuel, tr) => (OutOfFuel, [Log_args] ++ map Core tr)
    end.

(** ** Concrete inputs for the examples *)

Module Fixtures.

(** A tokenizer that counts every character as one token. *)
Definition char_count (text : string) : Z := Z.of_nat (String.length text).

(** [n] copies of a character. *)
Fixpoint fill (n : nat) (c : ascii) : string :=
  match n with
  | O => ""
  | S n' => String c (fill n' c)
  end.

(** An LLM that answers every query with the same short list. *)
Definition terse (history : list event) (query : string) : string := "* changes".

(** How many requests a history holds. *)
Definition asked (history : list event) : nat :=
  length (List.filter (fun e => match e with Ask _ => true | _ => false end) history).

(** The default of [--prompt], lines 118-122. *)
Definition commit_prompt : string :=
  "Write a git commit message for the following. The message starts with a one-line summary of 60 characters, followed by a blank line, followed by a longer but concise description of the change."
  +:+ nl +:+ nl.

(** What [main] sets [args.model] to without [--4]. *)
Definition gpt35 : string := "gpt-3.5-turbo".

(** The diff of one file: its header line and one line of [n] characters. *)
Definition file_diff (name : string) (n : nat) (c : ascii) : string :=
  "diff --git a/" +:+ name +:+ " b/" +:+ name +:+ nl +:+ fill n c +:+ nl.

(** A small diff. *)
Definition small_diff : string := file_diff "x" 5 "+".

(** One line of 5000 characters: no pattern of the ladder occurs in it. *)
Definition long_line : string := fill 5000 "x".

(** Two files of about 3000 tokens each. *)
Definition two_files : string := file_diff "one" 3000 "+" +:+ file_diff "two" 3000 "-".

(** Three files of about 3000 tokens each. *)
Definition three_files : string :=
  file_diff "one" 3000 "+" +:+ file_diff "two" 3000 "-" +:+ file_diff "three" 3000 "+".

(** A file of 4084 tokens, under the budget of 4097 by itself and over
    it together with the 69 characters of the prompt, and the header of a
    second file. *)
Definition nearly_full : string := file_diff "one" 4060 "+".
Definition second_header : string := "diff --git a/two b/two" +:+ nl.

(** An over-budget line followed by the header of a file. *)
Definition long_then_header : string := long_line +:+ nl +:+ second_header.

(** An LLM whose first answers are long and start like a diff, so that
    the summaries have to be compressed twice. *)
Definition long_answer : string := "diff " +:+ fill 3000 "a".
Definition longer_answer : string := "diff " +:+ fill 4500 "b".
Definition staged (history : list event) (query : string) : string :=
  match asked history with
  | 0%nat | 1%nat => long_answer
  | 2%nat => longer_answer
  | 3%nat => "* every change"
  | _ => "Change everything"
  end.

(** A first file that is over the budget by itself, and a small second
    file. *)
Definition big_then_small : string :=
  file_diff "one" 5000 "+" +:+ file_diff "two" 5 "-".

(** Stand-ins for [str.splitlines], [textwrap.wrap] and
    [llm.counter_string] that fit short lines without blanks. *)
Definition one_line (text : string) : list string := [text].
Definition no_counter (history : list event) : string := "".

(** A table with the budget of the specification's example. *)
Definition tiny_table : gmap string Z := {[ "tiny" := 12 ]}.

End Fixtures.

(** Comparisons of token counts of concrete texts. *)
Ltac count :=
  lazymatch goal with
  | |- _ < _ => vm_compute; reflexivity
  | |- _ <= _ => apply Z.leb_le; vm_compute; reflexivity
  | |- (_ <= _)%nat => apply Nat.leb_le; vm_compute; reflexivity
  | |- _ => vm_compute; reflexivity
  end.

Section Program.

(** The LLM client: the answer to a query after a history, and the
    tokenizer. *)
Variable llm_ask : list event -> string -> string.
Variable get_num_tokens : string -> Z.

(** The budget table that is consulted and [args.model].  The program
    runs with [table := max_token_count]; the laws of the loops are read
    at any table. *)
Variable table : gmap string Z.
Variable model : string.

(** [llm.ask(query)] *)
Definition ask (query : string) : M string :=
  fun tr => (Ok (llm_ask tr query), tr ++ [Ask query]).

(** [max_token_count[args.model]] *)
Definition budget : M Z :=
  match table !! model with
  | Some b => ret b
  | None => raise (KeyError model)
  end.

(** [sum(llm.get_num_tokens(c) for c in chunk)] *)
Definition sum_tokens (chunk : list string) : Z :=
  foldr (fun c acc => get_num_tokens c + acc) 0 chunk.

(** Lines 83-87: what is done with the text of a closed chunk.
    [self text] is the recursive call
    [summarize(llm, text, splitre=splitre[1:], prompt=prompt)]. *)
Definition summarize_chunk (self : string -> M (list string)) (prompt : string)
    (text : string) : M (list string) :=
  let* b := budget in
  if get_num_tokens text >? b
  then self text
  else (let* a := ask (prompt +:+ text) in ret [a]).

(** Lines 81-88, taken when the chunk is closed. *)
Definition close_chunk (self : string -> M (list string)) (prompt : string)
    (st : loop_state) : M loop_state :=
  let text := join "" (chunk st) in
  let chunk' : list string := [] in
  let* new := summarize_chunk self prompt text in
  ret (LoopState chunk' (sum_tokens chunk') (summaries st ++ new)).

(** Lines 78-90, one turn of [for part in parts[1:]]. *)
Definition loop_body (self : string -> M (list string)) (prompt : string)
    (st : loop_state) (part : string) : M loop_state :=
  let part_tcount := get_num_tokens part in
  let* b := budget in
  let* st' := (if chunk_tcount st + part_tcount >=? b
               then close_chunk self prompt st
               else ret st) in
  ret (LoopState (chunk st' ++ [part]) (chunk_tcount st' + part_tcount) (summaries st')).

(** Lines 77-90. *)
Fixpoint for_parts (self : string -> M (list string)) (prompt : string)
    (parts : list string) (st : loop_state) : M loop_state :=
  match parts with
  | [] => ret st
  | part :: rest =>
      let* st' := loop_body self prompt st part in
      for_parts self prompt rest st'
  end.

(** Lines 63-91, the part of [summarize] after the base case, for
    [splitre[0] = p]. *)
Definition split_and_chunk (self : string -> M (list string)) (p : Re.pattern)
    (text prompt : string) : M (list string) :=
  match split_parts p text with
  | [] => raise IndexError                         (* parts[0] *)
  | part0 :: parts =>
      let* st := for_parts self prompt parts
                   (LoopState [part0] (get_num_tokens part0) []) in
      ret (summaries st)
  end.

(** Line 61, the base case. *)
Definition base_case (text prompt : string) : M (list string) :=
  let* a := ask (prompt +:+ text) in ret [a].

(** [summarize], lines 48-91.  The recursion is on the ladder: the only
    recursive call passes [splitre[1:]]. *)
Fixpoint summarize (text : string) (splitre : list Re.pattern) (prompt : string)
    {struct splitre} : M (list string) :=
  let query := prompt +:+ text in
  let tcount := get_num_tokens query in
  let* b := budget in
  if tcount <=? b then base_case text prompt
  else
    match splitre with
    | [] => raise IndexError                       (* splitre[0] *)
    | p :: splitre' =>
        split_and_chunk (fun text' => summarize text' splitre' prompt) p text prompt
    end.

(** [summarize] with Python's call stack made explicit: the call may nest
    [depth] further calls of itself and is cut off when it needs more.
    The ladder of the nested call is [splitre[1:]], as line 85 writes it. *)
Fixpoint summarize_at (depth : nat) (text : string) (splitre : list Re.pattern)
    (prompt : string) {struct depth} : M (list string) :=
  let query := prompt +:+ text in
  let tcount := get_num_tokens query in
  let* b := budget in
  if tcount <=? b then base_case text prompt
  else
    match splitre with
    | [] => raise IndexError
    | p :: _ =>
        split_and_chunk
          (fun text' =>
             match depth with
             | O => out_of_fuel
             | S depth' => summarize_at depth' text' (tail splitre) prompt
             end)
          p text prompt
    end.

(** The chunks that were closed, handled one after the other as lines
    81-87 handle them. *)
Fixpoint summarize_chunks (self : string -> M (list string)) (prompt : string)
    (chunks : list (list string)) (summaries : list string) : M (list string) :=
  match chunks with
  | [] => ret summaries
  | chunk :: rest =>
      let* new := summarize_chunk self prompt (join "" chunk) in
      summarize_chunks self prompt rest (summaries ++ new)
  end.

(** The [while True] loop of [commit_message], lines 36-43, cut off after
    [fuel] compression passes. *)
Fixpoint compress (fuel : nat) (prompt : string) (result : list string)
    (overall_summary : string) : M (list string * string) :=
  let* b := budget in
  if get_num_tokens (prompt +:+ overall_summary) <=? b then
    ret (result, overall_summary)
  else
    match fuel with
    | O => out_of_fuel
    | S fuel' =>
        let* summaries := summarize overall_summary default_splitre compress_prompt in
        compress fuel' prompt (summaries ++ [more_detail] ++ result)
          (join (nl +:+ nl) summaries)
    end.

(** [commit_message], lines 24-46. *)
Definition commit_message (fuel : nat) (diff prompt : string) : M string :=
  let tcount := get_num_tokens (prompt +:+ diff) in
  let* _ := emit (Info_tokens tcount) in
  let* b := budget in
  if tcount <=? b then
    let* _ := emit (Info_sending (prompt +:+ diff)) in
    ask (prompt +:+ diff)
  else
    let* _ := emit (Warning_too_long tcount) in
    let* summaries := summarize diff default_splitre summarize_prompt in
    let result := [more_detail] ++ summaries in
    let overall_summary := join (nl +:+ nl) summaries in
    let* ro := compress fuel prompt result overall_summary in
    let* a := ask (prompt +:+ snd ro) in
    ret (join (nl +:+ nl) (a :: fst ro)).


(** The compression passes of a run, read off the loop of lines 36-43:
    [layers] are the summaries the passes returned, in the order the
    passes were made; a pass is made only on an over-budget
    [prompt + overall_summary]. *)
Fixpoint compression_run (b : Z) (prompt overall_summary : string)
    (tr : list event) (layers : list (list string))
    (overall_summary' : string) (tr' : list event) : Prop :=
  match layers with
  | [] => overall_summary' = overall_summary /\ tr' = tr
  | summaries :: rest =>
      b < get_num_tokens (prompt +:+ overall_summary) /\
      exists tr1,
        summarize overall_summary default_splitre compress_prompt tr = (Ok summaries, tr1) /\
        compression_run b prompt (join (nl +:+ nl) summaries) tr1 rest
          overall_summary' tr'
  end.

(** A computation only ever adds to the trace. *)
Definition extends {A} (m : M A) : Prop :=
  forall tr, exists evs, snd (m tr) = tr ++ evs.

(** Every string of the list is an answer of the LLM. *)
Definition answers (l : list string) : Prop :=
  Forall (fun x => exists history query, x = llm_ask history query) l.

(** A computation that is never cut off. *)
Definition completes {A} (m : M A) : Prop :=
  forall tr, fst (m tr) <> OutOfFuel.

(** A computation that never ends with [IndexError]. *)
Definition in_range {A} (m : M A) : Prop :=
  forall tr, fst (m tr) <> Raise IndexError.

(** The answers of the LLM to [queries] asked one after the other,
    starting after the history [tr]. *)
Fixpoint replay (tr : list event) (queries : list string) : list string :=
  match queries with
  | [] => []
  | query :: rest => llm_ask tr query :: replay (tr ++ [Ask query]) rest
  end.

(** A computation that ends with no exception. *)
Definition no_raise {A} (m : M A) : Prop :=
  forall tr e, fst (m tr) <> Raise e.

(** A computation whose only events are requests, each of them [ok]. *)
Definition asks_only {A} (ok : string -> Prop) (m : M A) : Prop :=
  forall tr, exists queries,
    snd (m tr) = tr ++ map Ask queries /\ Forall ok queries.

(** * Properties *)


(** ** Text and splitting *)

Lemma append_cons (c : ascii) (x y : string) :
  String c x +:+ y = String c (x +:+ y).
Proof. reflexivity. Qed.

Lemma append_nil_r (x : string) : x +:+ "" = x.
Proof.
  induction x as [|c x IH]; [reflexivity|].
  now rewrite append_cons, IH.
Qed.

Lemma append_assoc (x y z : string) : (x +:+ y) +:+ z = x +:+ (y +:+ z).
Proof.
  induction x as [|c x IH]; [reflexivity|].
  now rewrite !append_cons, IH.
Qed.

Lemma join_empty_cons (x : string) (l : list string) :
  join "" (x :: l) = x +:+ join "" l.
Proof.
  unfold join. destruct l as [|y l]; simpl.
  - now rewrite append_nil_r.
  - reflexivity.
Qed.

Lemma join_empty_app (l1 l2 : list string) :
  join "" (l1 ++ l2) = join "" l1 +:+ join "" l2.
Proof.
  induction l1 as [|x l1 IH]; [reflexivity|].
  rewrite <- app_comm_cons, !join_empty_cons, IH, append_assoc. reflexivity.
Qed.

Lemma join_push (c : ascii) (pieces : list string) :
  join "" (Re.push c pieces) = String c (join "" pieces).
Proof.
  destruct pieces as [|x l]; [reflexivity|].
  unfold Re.push. rewrite !join_empty_cons. reflexivity.
Qed.

(** A prefix can be cut off and put back. *)
Lemma prefix_drop (pre s : string) :
  String.prefix pre s = true -> s = pre +:+ string_drop (String.length pre) s.
Proof.
  revert s. induction pre as [|c pre IH]; intros s H; [reflexivity|].
  destruct s as [|d s]; simpl in H; [discriminate|].
  destruct (ascii_dec c d) as [->|]; [|discriminate].
  rewrite append_cons. simpl. f_equal. now apply IH.
Qed.

Lemma prefix_length (pre s : string) :
  String.prefix pre s = true -> (String.length pre <= String.length s)%nat.
Proof.
  revert s. induction pre as [|c pre IH]; intros s H; simpl; [lia|].
  destruct s as [|d s]; simpl in H; [discriminate|].
  destruct (ascii_dec c d); [|discriminate].
  simpl. apply IH in H. lia.
Qed.

Lemma prefix_append (pre x y : string) :
  String.prefix pre x = true -> String.prefix pre (x +:+ y) = true.
Proof.
  revert x. induction pre as [|c pre IH]; intros x H; [now destruct (x +:+ y)|].
  destruct x as [|d x]; simpl in H; [discriminate|].
  rewrite append_cons. simpl. destruct (ascii_dec c d); [|discriminate].
  now apply IH.
Qed.

(** *** What a match consumes *)

Lemma match_at_groups (p : Re.pattern) prev s n :
  Re.keeps_delimiter p = true ->
  Re.match_at true p prev s = Some n ->
  (n <= String.length s)%nat /\ s = join "" (Re.groups p) +:+ string_drop n s.
Proof.
  intros Hk Hm. destruct p; try discriminate; simpl in Hm.
  - destruct (Re.at_line_start true prev && String.prefix "diff " s) eqn:E;
      [|discriminate].
    injection Hm as <-. apply andb_true_iff in E as [_ E].
    split; [exact (prefix_length _ _ E) | exact (prefix_drop _ _ E)].
  - destruct (Re.at_line_start true prev && Re.at_line_end true s);
      [|discriminate].
    injection Hm as <-. split; [lia | reflexivity].
Qed.

(** The pieces of [re.split], put side by side, are the text that was
    scanned (after the part of a match still to be passed over). *)
Lemma split_from_join (p : Re.pattern) (s : string) :
  Re.keeps_delimiter p = true ->
  forall prev skip, (skip <= String.length s)%nat ->
    join "" (Re.split_from p prev skip s) = string_drop skip s.
Proof.
  intros Hk. induction s as [|c s IH]; intros prev skip Hskip.
  - assert (skip = O) as -> by (simpl in Hskip; lia). simpl.
    destruct (Re.match_at true p prev "") as [[|k]|] eqn:E; try reflexivity.
    apply match_at_groups in E as [E _]; [simpl in E; lia | exact Hk].
  - destruct skip as [|k].
    + simpl. destruct (Re.match_at true p prev (String c s)) as [[|k]|] eqn:E.
      * rewrite join_empty_cons, join_push, IH by lia. reflexivity.
      * apply match_at_groups in E as [Hlen E]; [|exact Hk].
        rewrite join_empty_cons, join_empty_app, IH by (simpl in Hlen; lia).
        simpl in E. symmetry. exact E.
      * rewrite join_push, IH by lia. reflexivity.
    + simpl in *. apply IH. lia.
Qed.

Lemma split_from_nonempty (p : Re.pattern) prev skip s :
  Re.split_from p prev skip s <> [].
Proof.
  revert prev skip. induction s as [|c s IH]; intros prev skip.
  - destruct skip; simpl; [|discriminate].
    destruct (Re.match_at true p prev "") as [[|k]|]; discriminate.
  - destruct skip as [|k]; simpl; [|apply IH].
    destruct (Re.match_at true p prev (String c s)) as [[|k]|]; try discriminate.
    specialize (IH (Some c) O). destruct (Re.split_from p (Some c) 0 s);
      [contradiction | discriminate].
Qed.

(** *** The recombination loop *)

Lemma add_to_last_join (combined_parts : list string) (part : string) :
  combined_parts <> [] ->
  join "" (add_to_last combined_parts part) = join "" combined_parts +:+ part.
Proof.
  induction combined_parts as [|x l IH]; intros Hne; [contradiction|].
  destruct l as [|y l].
  - reflexivity.
  - change (add_to_last (x :: y :: l) part) with (x :: add_to_last (y :: l) part).
    rewrite !join_empty_cons, IH by discriminate.
    now rewrite join_empty_cons, !append_assoc.
Qed.

Lemma add_to_last_length (combined_parts : list string) (part : string) :
  length (add_to_last combined_parts part) = length combined_parts.
Proof.
  induction combined_parts as [|x l IH]; [reflexivity|].
  destruct l as [|y l]; [reflexivity|].
  change (add_to_last (x :: y :: l) part) with (x :: add_to_last (y :: l) part).
  simpl in *. now rewrite IH.
Qed.

Lemma recombine_join (p : Re.pattern) (parts combined_parts : list string) :
  join "" (recombine p parts combined_parts)
  = join "" combined_parts +:+ join "" parts.
Proof.
  revert combined_parts. induction parts as [|part rest IH]; intros acc; simpl.
  - change (join "" []) with "". now rewrite append_nil_r.
  - rewrite join_empty_cons.
    destruct (Re.matches p part || bool_decide (acc = [])) eqn:E; rewrite IH.
    + change (join "" []) with "".
      now rewrite join_empty_app, join_empty_cons, append_nil_r, append_assoc.
    + apply orb_false_iff in E as [_ E]. apply bool_decide_eq_false in E.
      now rewrite add_to_last_join, append_assoc.
Qed.

Lemma recombine_length_ge (p : Re.pattern) (parts combined_parts : list string) :
  (length combined_parts <= length (recombine p parts combined_parts))%nat.
Proof.
  revert combined_parts. induction parts as [|part rest IH]; intros acc; simpl.
  - lia.
  - destruct (Re.matches p part || bool_decide (acc = [])).
    + specialize (IH (acc ++ [part])). rewrite length_app in IH. lia.
    + specialize (IH (add_to_last acc part)).
      rewrite add_to_last_length in IH. lia.
Qed.

(** [parts[0]] at line 75 never fails. *)
Lemma split_parts_nonempty (p : Re.pattern) (text : string) :
  split_parts p text <> [].
Proof.
  unfold split_parts, Re.split.
  pose proof (split_from_nonempty p None O text) as Hne.
  destruct (Re.split_from p None 0 text) as [|x l]; [contradiction|].
  simpl. rewrite orb_true_r.
  pose proof (recombine_length_ge p l [x]) as Hlen.
  destruct (recombine p l [x]); [simpl in Hlen; lia | discriminate].
Qed.

(** When no piece starts with the pattern, everything is glued onto the
    first piece. *)
Lemma recombine_no_match (p : Re.pattern) (parts combined_parts : list string) :
  Forall (fun part => Re.matches p part = false) parts ->
  combined_parts <> [] ->
  length (recombine p parts combined_parts) = length combined_parts.
Proof.
  intros Hall. revert combined_parts.
  induction Hall as [|part rest Hpart _ IH]; intros acc Hacc; [reflexivity|].
  simpl. rewrite Hpart. rewrite bool_decide_eq_false_2 by exact Hacc. simpl.
  rewrite IH, add_to_last_length; [reflexivity|].
  intros E. apply (f_equal length) in E. rewrite add_to_last_length in E.
  destruct acc; [contradiction | discriminate].
Qed.

Lemma prefix_nl (c : ascii) (x : string) :
  String.prefix nl (String c x) = if ascii_dec LF c then true else false.
Proof.
  unfold nl. cbn [String.prefix].
  destruct (ascii_dec LF c); [destruct x|]; reflexivity.
Qed.

Lemma matches_newline (c : ascii) (x : string) :
  c <> LF -> Re.matches Re.Newline (String c x) = false.
Proof.
  intros Hc. unfold Re.matches, Re.match_at. rewrite prefix_nl.
  destruct (ascii_dec LF c); [congruence | reflexivity].
Qed.

Lemma push_no_newline (c : ascii) (pieces : list string) :
  c <> LF ->
  Forall (fun part => Re.matches Re.Newline part = false) pieces ->
  Forall (fun part => Re.matches Re.Newline part = false) (Re.push c pieces).
Proof.
  intros Hc Hall.
  destruct Hall as [|x l Hx Hl]; unfold Re.push; constructor; auto;
    now apply matches_newline.
Qed.

(** No piece of [re.split("\n", ...)] starts with a line feed. *)
Lemma split_newline_pieces prev skip s :
  Forall (fun part => Re.matches Re.Newline part = false)
    (Re.split_from Re.Newline prev skip s).
Proof.
  revert prev skip. induction s as [|c s IH]; intros prev skip.
  - destruct skip; simpl; repeat constructor.
  - destruct skip as [|k]; [|apply IH].
    cbn [Re.split_from Re.match_at]. rewrite prefix_nl.
    destruct (ascii_dec LF c) as [E|E].
    + constructor; [reflexivity | apply IH].
    + apply push_no_newline; [congruence | apply IH].
Qed.

(** The ["\n"] rung never yields more than one part. *)
Lemma split_parts_newline (text : string) :
  exists part, split_parts Re.Newline text = [part].
Proof.
  unfold split_parts, Re.split.
  pose proof (split_from_nonempty Re.Newline None O text) as Hne.
  pose proof (split_newline_pieces None O text) as Hall.
  destruct (Re.split_from Re.Newline None 0 text) as [|x l]; [contradiction|].
  inversion Hall as [|? ? Hx Hl]; subst.
  simpl. rewrite Hx. simpl.
  pose proof (recombine_no_match Re.Newline l [x] Hl) as Hlen.
  destruct (recombine Re.Newline l [x]) as [|y [|z r]]; simpl in Hlen;
    try (specialize (Hlen ltac:(discriminate)); discriminate).
  now exists y.
Qed.

Lemma matches_diff (part : string) :
  Re.matches Re.Diff part = String.prefix "diff " part.
Proof.
  unfold Re.matches, Re.match_at, Re.at_line_start.
  now destruct (String.prefix "diff " part).
Qed.

Lemma add_to_last_prefix (pre : string) (l : list string) (part : string) :
  Forall (fun x => String.prefix pre x = true) l ->
  Forall (fun x => String.prefix pre x = true) (add_to_last l part).
Proof.
  induction l as [|x l IH]; intros Hall; [constructor|].
  inversion Hall as [|? ? Hx Hl]; subst.
  destruct l as [|y l].
  - constructor; [now apply prefix_append | constructor].
  - change (add_to_last (x :: y :: l) part) with (x :: add_to_last (y :: l) part).
    constructor; [exact Hx | now apply IH].
Qed.

(** Under [^(diff )] every part but the first starts with ["diff "]. *)
Lemma recombine_diff_tail (parts combined_parts : list string) :
  Forall (fun x => String.prefix "diff " x = true) (tail combined_parts) ->
  Forall (fun x => String.prefix "diff " x = true)
    (tail (recombine Re.Diff parts combined_parts)).
Proof.
  revert combined_parts. induction parts as [|part rest IH]; intros acc Hacc;
    [exact Hacc|].
  simpl. destruct (Re.matches Re.Diff part || bool_decide (acc = [])) eqn:E;
    apply IH.
  - destruct acc as [|x acc]; [constructor|].
    rewrite bool_decide_eq_false_2, orb_false_r, matches_diff in E by discriminate.
    simpl in *. apply Forall_app; split; [exact Hacc | now repeat constructor].
  - destruct acc as [|x [|y acc]]; [constructor | constructor |].
    change (add_to_last (x :: y :: acc) part) with (x :: add_to_last (y :: acc) part).
    cbn [tail] in *. now apply add_to_last_prefix.
Qed.

(** ** The monad *)

Lemma bind_ok {A B} (m : M A) (k : A -> M B) tr a tr' :
  m tr = (Ok a, tr') -> bind m k tr = k a tr'.
Proof. intros H. unfold bind. now rewrite H. Qed.

Lemma bind_raise {A B} (m : M A) (k : A -> M B) tr e tr' :
  m tr = (Raise e, tr') -> bind m k tr = (Raise e, tr').
Proof. intros H. unfold bind. now rewrite H. Qed.

Lemma bind_assoc {A B C} (m : M A) (k : A -> M B) (h : B -> M C) tr :
  bind (bind m k) h tr = bind m (fun a => bind (k a) h) tr.
Proof. unfold bind. destruct (m tr) as [[a|e|] tr']; reflexivity. Qed.

Lemma bind_ext {A B} (m : M A) (k k' : A -> M B) tr :
  (forall a tr', k a tr' = k' a tr') -> bind m k tr = bind m k' tr.
Proof. intros H. unfold bind. destruct (m tr) as [[a|e|] tr']; auto. Qed.

(** ** The budget *)

Lemma budget_ok b tr : table !! model = Some b -> budget tr = (Ok b, tr).
Proof. intros H. unfold budget. now rewrite H. Qed.

Lemma budget_missing tr :
  table !! model = None -> budget tr = (Raise (KeyError model), tr).
Proof. intros H. unfold budget. now rewrite H. Qed.


(** ** The chunking loop *)

Lemma sum_tokens_app (l1 l2 : list string) :
  sum_tokens (l1 ++ l2) = sum_tokens l1 + sum_tokens l2.
Proof.
  induction l1 as [|x l1 IH]; simpl; [reflexivity|].
  rewrite IH. lia.
Qed.

Lemma sum_tokens_single (part : string) :
  sum_tokens [part] = get_num_tokens part.
Proof. simpl. lia. Qed.

Lemma assemble_nonempty b current total parts :
  assemble get_num_tokens b current total parts <> [].
Proof.
  revert current total. induction parts as [|part rest IH]; intros; simpl;
    [discriminate|].
  destruct (total + get_num_tokens part <? b); [apply IH | discriminate].
Qed.

Lemma removelast_cons {A} (x : A) (l : list A) :
  l <> [] -> removelast (x :: l) = x :: removelast l.
Proof. destruct l; [contradiction | reflexivity]. Qed.

Lemma last_cons {A} (x : A) (l : list A) d :
  l <> [] -> List.last (x :: l) d = List.last l d.
Proof. destruct l; [contradiction | reflexivity]. Qed.

(** The loop of lines 77-90 started in any state whose count is the sum
    over its chunk: it closes, in order, all chunks of the greedy
    assembly but the last, and ends with the last one still open. *)
Lemma for_parts_assemble b self prompt parts :
  table !! model = Some b ->
  forall current sums tr,
    for_parts self prompt parts (LoopState current (sum_tokens current) sums) tr
    = (let chunks := assemble get_num_tokens b current (sum_tokens current) parts in
       let* sums' := summarize_chunks self prompt (removelast chunks) sums in
       ret (LoopState (List.last chunks []) (sum_tokens (List.last chunks [])) sums')) tr.
Proof.
  intros Hb. induction parts as [|part rest IH]; intros current sums tr.
  - reflexivity.
  - cbn [for_parts assemble]. unfold loop_body.
    rewrite bind_assoc, (bind_ok _ _ _ _ _ (budget_ok b tr Hb)).
    rewrite Z.geb_leb, Z.ltb_antisym.
    cbn [chunk_tcount].
    destruct (b <=? sum_tokens current + get_num_tokens part) eqn:E;
      cbn [negb].
    + pose proof (assemble_nonempty b [part] (get_num_tokens part) rest) as Hne.
      cbv zeta. rewrite removelast_cons, last_cons by exact Hne.
      cbn [summarize_chunks]. unfold close_chunk. cbn [chunk summaries].
      rewrite !bind_assoc. apply bind_ext. intros new tr'.
      unfold bind at 1 2. unfold ret at 1 2. cbn [chunk chunk_tcount summaries].
      change ([] ++ [part]) with [part].
      replace (sum_tokens [] + get_num_tokens part) with (sum_tokens [part])
        by (simpl; lia).
      rewrite IH. rewrite sum_tokens_single. reflexivity.
    + unfold bind at 1 2. unfold ret at 1. cbn [chunk chunk_tcount summaries].
      replace (sum_tokens current + get_num_tokens part)
        with (sum_tokens (current ++ [part]))
        by (rewrite sum_tokens_app, sum_tokens_single; reflexivity).
      apply IH.
Qed.

(** A pass of [summarize] past the base case: the chunks of the greedy
    assembly of the parts are handled in order, all but the last one. *)
Lemma split_and_chunk_assemble b self p text prompt tr :
  table !! model = Some b ->
  split_and_chunk self p text prompt tr
  = summarize_chunks self prompt
      (removelast (ChunkAssembler get_num_tokens b (split_parts p text))) [] tr.
Proof.
  intros Hb. unfold split_and_chunk, ChunkAssembler.
  pose proof (split_parts_nonempty p text) as Hne.
  destruct (split_parts p text) as [|part0 parts]; [contradiction|].
  rewrite <- (sum_tokens_single part0).
  unfold bind at 1. rewrite (for_parts_assemble b self prompt parts Hb).
  cbv zeta. unfold bind at 1.
  destruct (summarize_chunks self prompt _ [] tr) as [[sums|e|] tr']; reflexivity.
Qed.

(** The loops only use [self] through its results. *)
Lemma summarize_chunk_ext self self' prompt text tr :
  (forall text' tr', self text' tr' = self' text' tr') ->
  summarize_chunk self prompt text tr = summarize_chunk self' prompt text tr.
Proof.
  intros H. unfold summarize_chunk. apply bind_ext. intros b tr'.
  destruct (get_num_tokens text >? b); [apply H | reflexivity].
Qed.

Lemma loop_body_ext self self' prompt st part tr :
  (forall text' tr', self text' tr' = self' text' tr') ->
  loop_body self prompt st part tr = loop_body self' prompt st part tr.
Proof.
  intros H. unfold loop_body. apply bind_ext. intros b tr1.
  destruct (chunk_tcount st + get_num_tokens part >=? b); [|reflexivity].
  unfold close_chunk, bind.
  now rewrite (summarize_chunk_ext self self') by exact H.
Qed.

Lemma for_parts_ext self self' prompt parts st tr :
  (forall text' tr', self text' tr' = self' text' tr') ->
  for_parts self prompt parts st tr = for_parts self' prompt parts st tr.
Proof.
  intros H. revert st tr. induction parts as [|part rest IH]; intros st tr;
    [reflexivity|].
  cbn [for_parts]. unfold bind.
  rewrite (loop_body_ext self self') by exact H.
  destruct (loop_body self' prompt st part tr) as [[st'|e|] tr'];
    [apply IH | reflexivity | reflexivity].
Qed.

Lemma split_and_chunk_ext self self' p text prompt tr :
  (forall text' tr', self text' tr' = self' text' tr') ->
  split_and_chunk self p text prompt tr = split_and_chunk self' p text prompt tr.
Proof.
  intros H. unfold split_and_chunk.
  destruct (split_parts p text) as [|part0 parts]; [reflexivity|].
  unfold bind. now rewrite (for_parts_ext self self').
Qed.

(** ** [summarize] *)

Lemma summarize_unfold text splitre prompt tr :
  summarize text splitre prompt tr
  = (let* b := budget in
     if get_num_tokens (prompt +:+ text) <=? b then base_case text prompt
     else match splitre with
          | [] => raise IndexError
          | p :: splitre' =>
              split_and_chunk (fun text' => summarize text' splitre' prompt)
                p text prompt
          end) tr.
Proof. destruct splitre; reflexivity. Qed.

Lemma summarize_base b text splitre prompt tr :
  table !! model = Some b ->
  get_num_tokens (prompt +:+ text) <= b ->
  summarize text splitre prompt tr
  = (Ok [llm_ask tr (prompt +:+ text)], tr ++ [Ask (prompt +:+ text)]).
Proof.
  intros Hb Hle. rewrite summarize_unfold, (bind_ok _ _ _ _ _ (budget_ok b tr Hb)).
  apply Z.leb_le in Hle. rewrite Hle. reflexivity.
Qed.

Lemma summarize_over b text splitre prompt tr :
  table !! model = Some b ->
  b < get_num_tokens (prompt +:+ text) ->
  summarize text splitre prompt tr
  = match splitre with
    | [] => (Raise IndexError, tr)
    | p :: splitre' =>
        split_and_chunk (fun text' => summarize text' splitre' prompt)
          p text prompt tr
    end.
Proof.
  intros Hb Hlt. rewrite summarize_unfold, (bind_ok _ _ _ _ _ (budget_ok b tr Hb)).
  apply Z.leb_gt in Hlt. rewrite Hlt. destruct splitre; reflexivity.
Qed.

Lemma summarize_no_budget text splitre prompt tr :
  table !! model = None ->
  summarize text splitre prompt tr = (Raise (KeyError model), tr).
Proof.
  intros Hb. rewrite summarize_unfold.
  now rewrite (bind_raise _ _ _ _ _ (budget_missing tr Hb)).
Qed.

(** The call stack never needs more frames than the ladder has rungs. *)
Lemma summarize_at_enough splitre :
  forall depth, (length splitre <= depth)%nat ->
  forall text prompt tr,
    summarize_at depth text splitre prompt tr = summarize text splitre prompt tr.
Proof.
  induction splitre as [|p splitre' IH]; intros depth Hd text prompt tr.
  - destruct depth; reflexivity.
  - destruct depth as [|depth']; [simpl in Hd; lia|].
    cbn [summarize_at summarize]. apply bind_ext. intros b tr1.
    destruct (get_num_tokens (prompt +:+ text) <=? b); [reflexivity|].
    apply split_and_chunk_ext. intros text' tr'. cbn [tail].
    apply IH. simpl in Hd. lia.
Qed.

(** ** Traces only grow *)

Lemma extends_ret {A} (a : A) : extends (ret a).
Proof. intros tr. exists []. simpl. now rewrite app_nil_r. Qed.

Lemma extends_raise {A} (e : exn) : extends (@raise A e).
Proof. intros tr. exists []. simpl. now rewrite app_nil_r. Qed.

Lemma extends_out_of_fuel {A} : extends (@out_of_fuel A).
Proof. intros tr. exists []. simpl. now rewrite app_nil_r. Qed.

Lemma extends_bind {A B} (m : M A) (k : A -> M B) :
  extends m -> (forall a, extends (k a)) -> extends (bind m k).
Proof.
  intros Hm Hk tr. unfold bind. destruct (Hm tr) as [evs Hevs].
  destruct (m tr) as [[a|e|] tr1]; simpl in Hevs; subst; simpl; eauto.
  destruct (Hk a (tr ++ evs)) as [evs' Hevs']. exists (evs ++ evs').
  now rewrite Hevs', app_assoc.
Qed.

Lemma extends_ask query : extends (ask query).
Proof. intros tr. now exists [Ask query]. Qed.

Lemma extends_emit e : extends (emit e).
Proof. intros tr. now exists [e]. Qed.

Lemma extends_budget : extends budget.
Proof. unfold budget. destruct (table !! model); [apply extends_ret | apply extends_raise]. Qed.

Create HintDb extends.
Local Hint Resolve extends_ret extends_raise extends_out_of_fuel extends_ask
  extends_emit extends_budget : extends.

Lemma extends_summarize_chunk self prompt text :
  (forall text', extends (self text')) -> extends (summarize_chunk self prompt text).
Proof.
  intros H. unfold summarize_chunk. apply extends_bind; auto with extends.
  intros b. destruct (get_num_tokens text >? b); [apply H|].
  apply extends_bind; auto with extends.
Qed.

Lemma extends_for_parts self prompt parts :
  (forall text', extends (self text')) ->
  forall st, extends (for_parts self prompt parts st).
Proof.
  intros H. induction parts as [|part rest IH]; intros st; cbn [for_parts];
    auto with extends.
  apply extends_bind; [|exact IH].
  unfold loop_body. apply extends_bind; auto with extends. intros b.
  apply extends_bind; auto with extends.
  destruct (chunk_tcount st + get_num_tokens part >=? b); auto with extends.
  unfold close_chunk. apply extends_bind; auto with extends.
  now apply extends_summarize_chunk.
Qed.

Lemma extends_summarize splitre : forall text prompt,
  extends (summarize text splitre prompt).
Proof.
  induction splitre as [|p splitre' IH]; intros text prompt; cbn [summarize];
    (apply extends_bind; [auto with extends|]); intros b;
    (destruct (get_num_tokens (prompt +:+ text) <=? b);
       [unfold base_case; apply extends_bind; auto with extends|]);
    auto with extends.
  unfold split_and_chunk. destruct (split_parts p text); auto with extends.
  apply extends_bind; auto with extends.
  apply extends_for_parts. intros text'. apply IH.
Qed.

Lemma extends_compress fuel : forall prompt result overall_summary,
  extends (compress fuel prompt result overall_summary).
Proof.
  induction fuel as [|fuel' IH]; intros prompt result overall; cbn [compress];
    (apply extends_bind; [auto with extends|]); intros b;
    destruct (get_num_tokens (prompt +:+ overall) <=? b); auto with extends.
  apply extends_bind; [apply extends_summarize | intros; apply IH].
Qed.

(** ** Summaries are answers of the LLM *)

Lemma answers_summarize_chunks self prompt :
  (forall text tr l tr', self text tr = (Ok l, tr') -> answers l) ->
  forall chunks sums tr l tr',
    answers sums ->
    summarize_chunks self prompt chunks sums tr = (Ok l, tr') -> answers l.
Proof.
  intros Hself. induction chunks as [|c rest IH]; intros sums tr l tr' Hs H.
  - now injection H as <- <-.
  - cbn [summarize_chunks] in H. unfold bind at 1 in H.
    destruct (summarize_chunk self prompt (join "" c) tr) as [[new|e|] tr1] eqn:E;
      try discriminate.
    apply IH in H; [exact H|]. apply Forall_app; split; [exact Hs|].
    unfold summarize_chunk, bind in E.
    destruct (budget tr) as [[b|e|] tr0]; try discriminate.
    destruct (get_num_tokens (join "" c) >? b); [now apply Hself in E|].
    unfold ask, ret in E. injection E as <- <-. repeat constructor. eauto.
Qed.

Lemma answers_summarize splitre : forall text prompt tr l tr',
  summarize text splitre prompt tr = (Ok l, tr') -> answers l.
Proof.
  induction splitre as [|p splitre' IH]; intros text prompt tr l tr' H;
    rewrite summarize_unfold in H; unfold bind at 1 in H;
    destruct (budget tr) as [[b|e|] tr0] eqn:Eb; try discriminate;
    (destruct (get_num_tokens (prompt +:+ text) <=? b);
       [unfold base_case, bind, ask, ret in H; injection H as <- <-;
        repeat constructor; eauto|]).
  - discriminate.
  - unfold budget in Eb. destruct (table !! model) as [b'|] eqn:Hb; [|discriminate].
    rewrite (split_and_chunk_assemble b') in H by exact Hb.
    eapply answers_summarize_chunks in H; [exact H | | constructor].
    intros text' tr1 l1 tr1'. apply IH.
Qed.

(** ** [summarize] always comes back *)

Lemma completes_bind {A B} (m : M A) (k : A -> M B) :
  completes m -> (forall a, completes (k a)) -> completes (bind m k).
Proof.
  intros Hm Hk tr. unfold bind. specialize (Hm tr).
  destruct (m tr) as [[a|e|] tr1]; simpl in *; [apply Hk | discriminate | now contradiction Hm].
Qed.

Lemma completes_ret {A} (a : A) : completes (ret a).
Proof. intros tr. discriminate. Qed.

Lemma completes_raise {A} (e : exn) : completes (@raise A e).
Proof. intros tr. discriminate. Qed.

Lemma completes_ask query : completes (ask query).
Proof. intros tr. discriminate. Qed.

Lemma completes_budget : completes budget.
Proof.
  unfold budget. destruct (table !! model); [apply completes_ret | apply completes_raise].
Qed.

Create HintDb completes.
Local Hint Resolve completes_ret completes_raise completes_ask completes_budget
  : completes.

Lemma completes_for_parts self prompt parts :
  (forall text', completes (self text')) ->
  forall st, completes (for_parts self prompt parts st).
Proof.
  intros H. induction parts as [|part rest IH]; intros st; cbn [for_parts];
    auto with completes.
  apply completes_bind; [|exact IH].
  unfold loop_body. apply completes_bind; auto with completes. intros b.
  apply completes_bind; auto with completes.
  destruct (chunk_tcount st + get_num_tokens part >=? b); auto with completes.
  unfold close_chunk. apply completes_bind; auto with completes.
  unfold summarize_chunk. apply completes_bind; auto with completes. intros b'.
  destruct (get_num_tokens (join "" (chunk st)) >? b'); [apply H|].
  apply completes_bind; auto with completes.
Qed.

Lemma completes_summarize splitre : forall text prompt,
  completes (summarize text splitre prompt).
Proof.
  induction splitre as [|p splitre' IH]; intros text prompt; cbn [summarize];
    (apply completes_bind; [auto with completes|]); intros b;
    (destruct (get_num_tokens (prompt +:+ text) <=? b);
       [unfold base_case; apply completes_bind; auto with completes|]);
    auto with completes.
  unfold split_and_chunk. destruct (split_parts p text); auto with completes.
  apply completes_bind; auto with completes.
  apply completes_for_parts. intros text'. apply IH.
Qed.

(** ** The compression loop *)

Lemma compress_unfold fuel prompt result overall_summary tr :
  compress fuel prompt result overall_summary tr
  = (let* b := budget in
     if get_num_tokens (prompt +:+ overall_summary) <=? b
     then ret (result, overall_summary)
     else match fuel with
          | O => out_of_fuel
          | S fuel' =>
              let* summaries := summarize overall_summary default_splitre compress_prompt in
              compress fuel' prompt (summaries ++ [more_detail] ++ result)
                (join (nl +:+ nl) summaries)
          end) tr.
Proof. destruct fuel; reflexivity. Qed.

(** The loop leaves as soon as [prompt + overall_summary] fits. *)
Lemma compress_fits b fuel prompt result overall_summary tr :
  table !! model = Some b ->
  get_num_tokens (prompt +:+ overall_summary) <= b ->
  compress fuel prompt result overall_summary tr = (Ok (result, overall_summary), tr).
Proof.
  intros Hb Hle. rewrite compress_unfold, (bind_ok _ _ _ _ _ (budget_ok b tr Hb)).
  apply Z.leb_le in Hle. now rewrite Hle.
Qed.

(** Enough fuel for the passes of a run gives the layered result. *)
Lemma compress_run b prompt layers :
  table !! model = Some b ->
  forall fuel result overall_summary tr overall_summary' tr',
    compression_run b prompt overall_summary tr layers overall_summary' tr' ->
    get_num_tokens (prompt +:+ overall_summary') <= b ->
    (length layers <= fuel)%nat ->
    compress fuel prompt result overall_summary tr
    = (Ok (prepend_layers layers result, overall_summary'), tr').
Proof.
  intros Hb. induction layers as [|summaries rest IH];
    intros fuel result overall tr overall' tr' Hrun Hfit Hfuel.
  - destruct Hrun as [-> ->]. now apply (compress_fits b).
  - destruct Hrun as [Hover [tr1 [Hsum Hrun]]].
    destruct fuel as [|fuel']; [simpl in Hfuel; lia|].
    rewrite compress_unfold, (bind_ok _ _ _ _ _ (budget_ok b tr Hb)).
    apply Z.leb_gt in Hover. rewrite Hover.
    rewrite (bind_ok _ _ _ _ _ Hsum).
    apply IH; [exact Hrun | exact Hfit | simpl in Hfuel; lia].
Qed.

(** Whatever the loop returns was built that way. *)
Lemma compress_inv b prompt fuel :
  table !! model = Some b ->
  forall result overall_summary tr result' overall_summary' tr',
    compress fuel prompt result overall_summary tr
    = (Ok (result', overall_summary'), tr') ->
    exists layers,
      compression_run b prompt overall_summary tr layers overall_summary' tr' /\
      get_num_tokens (prompt +:+ overall_summary') <= b /\
      (length layers <= fuel)%nat /\
      result' = prepend_layers layers result.
Proof.
  intros Hb. induction fuel as [|fuel' IH];
    intros result overall tr result' overall' tr' H;
    rewrite compress_unfold, (bind_ok _ _ _ _ _ (budget_ok b tr Hb)) in H;
    destruct (get_num_tokens (prompt +:+ overall) <=? b) eqn:E.
  - injection H as <- <- <-. apply Z.leb_le in E.
    exists []. simpl. repeat split; auto.
  - discriminate.
  - injection H as <- <- <-. apply Z.leb_le in E.
    exists []. simpl. repeat split; auto. lia.
  - unfold bind at 1 in H.
    destruct (summarize overall default_splitre compress_prompt tr)
      as [[summaries|e|] tr1] eqn:Hsum; try discriminate.
    apply IH in H as [layers [Hrun [Hfit [Hlen ->]]]].
    exists (summaries :: layers). apply Z.leb_gt in E.
    repeat split; simpl; eauto. lia.
Qed.

Lemma compression_run_answers b prompt layers :
  forall overall_summary tr overall_summary' tr',
    compression_run b prompt overall_summary tr layers overall_summary' tr' ->
    Forall answers layers.
Proof.
  induction layers as [|summaries rest IH]; intros overall tr overall' tr' Hrun;
    [constructor|].
  destruct Hrun as [_ [tr1 [Hsum Hrun]]]. constructor.
  - eapply answers_summarize, Hsum.
  - eapply IH, Hrun.
Qed.

(** *** Headings *)

Lemma headings_app (l1 l2 : list string) :
  headings (l1 ++ l2) = (headings l1 + headings l2)%nat.
Proof. unfold headings. now rewrite filter_app, length_app. Qed.

Lemma headings_answers (l : list string) :
  (forall history query, llm_ask history query <> more_detail) ->
  answers l -> headings l = O.
Proof.
  intros Hno Hl. unfold headings.
  induction Hl as [|x l [h [q ->]] _ IH]; [reflexivity|].
  rewrite filter_cons_False by apply Hno. exact IH.
Qed.

Lemma headings_prepend_layers (layers : list (list string)) :
  (forall history query, llm_ask history query <> more_detail) ->
  Forall answers layers ->
  forall result,
    headings (prepend_layers layers result) = (length layers + headings result)%nat.
Proof.
  intros Hno Hall. induction Hall as [|summaries rest Hs _ IH]; intros result;
    [reflexivity|].
  unfold prepend_layers in *. cbn [fold_left]. rewrite IH.
  rewrite !headings_app, (headings_answers summaries Hno Hs).
  unfold headings at 1. rewrite filter_cons_True by reflexivity.
  simpl. lia.
Qed.

(** ** A pass of [summarize] *)

(** Past the base case, a pass hands the chunks of the greedy assembly to
    the LLM or to the next rung, in order, except the last chunk. *)
Lemma summarize_over_chunks b p splitre' text prompt tr :
  table !! model = Some b ->
  b < get_num_tokens (prompt +:+ text) ->
  summarize text (p :: splitre') prompt tr
  = summarize_chunks (fun text' => summarize text' splitre' prompt) prompt
      (removelast (ChunkAssembler get_num_tokens b (split_parts p text))) [] tr.
Proof.
  intros Hb Hover. rewrite (summarize_over b) by assumption.
  now apply split_and_chunk_assemble.
Qed.

(** A text that the pattern leaves in one piece gives no summary at all. *)
Lemma summarize_single_part b p splitre' text prompt tr part :
  table !! model = Some b ->
  b < get_num_tokens (prompt +:+ text) ->
  split_parts p text = [part] ->
  summarize text (p :: splitre') prompt tr = (Ok [], tr).
Proof.
  intros Hb Hover Hparts. rewrite (summarize_over_chunks b) by assumption.
  now rewrite Hparts.
Qed.

(** On the last rung, a closed chunk that is over budget, with and
    without the prompt, makes the pass fail. *)
Lemma summarize_chunks_last_rung b prompt chunks :
  table !! model = Some b ->
  forall c sums tr,
    In c chunks ->
    b < get_num_tokens (join "" c) ->
    b < get_num_tokens (prompt +:+ join "" c) ->
    exists tr',
      summarize_chunks (fun text' => summarize text' [] prompt) prompt chunks sums tr
      = (Raise IndexError, tr').
Proof.
  intros Hb. induction chunks as [|c0 rest IH]; intros c sums tr Hin H1 H2;
    [contradiction|].
  cbn [summarize_chunks]. unfold bind at 1. unfold summarize_chunk.
  rewrite (bind_ok _ _ _ _ _ (budget_ok b tr Hb)).
  destruct (get_num_tokens (join "" c0) >? b) eqn:E.
  - destruct (Z_lt_le_dec b (get_num_tokens (prompt +:+ join "" c0))) as [Hlt|Hle].
    + rewrite (summarize_over b) by assumption. eauto.
    + rewrite (summarize_base b) by assumption.
      destruct Hin as [->|Hin]; [lia|]. eapply IH; eassumption.
  - destruct Hin as [->|Hin]; [rewrite Z.gtb_ltb in E; apply Z.ltb_ge in E; lia|].
    unfold bind, ask, ret. eapply IH; eassumption.
Qed.

(** *** The ladder of the program is never used up *)

Lemma in_range_bind {A B} (m : M A) (k : A -> M B) :
  in_range m -> (forall a, in_range (k a)) -> in_range (bind m k).
Proof.
  intros Hm Hk tr. unfold bind. specialize (Hm tr).
  destruct (m tr) as [[a|e|] tr1]; simpl in *;
    [apply Hk | congruence | discriminate].
Qed.

Lemma in_range_ret {A} (a : A) : in_range (ret a).
Proof. intros tr. discriminate. Qed.

Lemma in_range_ask query : in_range (ask query).
Proof. intros tr. discriminate. Qed.

Lemma in_range_budget : in_range budget.
Proof. intros tr. unfold budget. destruct (table !! model); discriminate. Qed.

Create HintDb in_range.
Local Hint Resolve in_range_ret in_range_ask in_range_budget : in_range.

Lemma in_range_for_parts self prompt parts :
  (forall text', in_range (self text')) ->
  forall st, in_range (for_parts self prompt parts st).
Proof.
  intros H. induction parts as [|part rest IH]; intros st; cbn [for_parts];
    auto with in_range.
  apply in_range_bind; [|exact IH].
  unfold loop_body. apply in_range_bind; auto with in_range. intros b.
  apply in_range_bind; auto with in_range.
  destruct (chunk_tcount st + get_num_tokens part >=? b); auto with in_range.
  unfold close_chunk. apply in_range_bind; auto with in_range.
  unfold summarize_chunk. apply in_range_bind; auto with in_range. intros b'.
  destruct (get_num_tokens (join "" (chunk st)) >? b'); [apply H|].
  apply in_range_bind; auto with in_range.
Qed.

(** A ladder that ends with ["\n"] is never used up: that rung leaves one
    part, so its loop closes no chunk and makes no further call. *)
Lemma in_range_summarize ladder : forall text prompt,
  in_range (summarize text (ladder ++ [Re.Newline]) prompt).
Proof.
  induction ladder as [|p ladder' IH]; intros text prompt tr;
    cbn [app]; rewrite summarize_unfold; revert tr;
    (apply in_range_bind; [auto with in_range|]); intros b;
    (destruct (get_num_tokens (prompt +:+ text) <=? b);
       [unfold base_case; apply in_range_bind; auto with in_range|]).
  - unfold split_and_chunk.
    destruct (split_parts_newline text) as [part ->]. cbn [for_parts].
    apply in_range_bind; auto with in_range.
  - unfold split_and_chunk. pose proof (split_parts_nonempty p text) as Hne.
    destruct (split_parts p text); [contradiction|].
    apply in_range_bind; auto with in_range.
    apply in_range_for_parts. intros text'. apply IH.
Qed.

(** In particular [summarize] on the default ladder, the only one
    [commit_message] uses, never raises [IndexError]. *)
Lemma default_ladder_in_range text prompt :
  in_range (summarize text default_splitre prompt).
Proof. exact (in_range_summarize [Re.Diff; Re.Blank] text prompt). Qed.

(** ** The claims *)

(** C5.  When [prompt + text] is within the budget, [commit_message]
    returns the answer to the single request [prompt + diff] and logs no
    summarizing, and [summarize] returns the one-element list with the
    answer to [prompt + text]; when it is over the budget neither takes
    that return: [commit_message] logs the warning of line 32 instead of
    the record of line 29, and [summarize] runs lines 63-91. *)
Theorem under_budget_single_ask b fuel diff text splitre prompt tr :
  table !! model = Some b ->
  let tcount := get_num_tokens (prompt +:+ diff) in
  (tcount <= b ->
     commit_message fuel diff prompt tr
     = (Ok (llm_ask (tr ++ [Info_tokens tcount; Info_sending (prompt +:+ diff)])
              (prompt +:+ diff)),
        tr ++ [Info_tokens tcount; Info_sending (prompt +:+ diff);
               Ask (prompt +:+ diff)]))
  /\ (get_num_tokens (prompt +:+ text) <= b ->
        summarize text splitre prompt tr
        = (Ok [llm_ask tr (prompt +:+ text)], tr ++ [Ask (prompt +:+ text)]))
  /\ (b < tcount ->
        exists evs,
          snd (commit_message fuel diff prompt tr)
          = tr ++ [Info_tokens tcount; Warning_too_long tcount] ++ evs)
  /\ (b < get_num_tokens (prompt +:+ text) ->
        summarize text splitre prompt tr
        = match splitre with
          | [] => (Raise IndexError, tr)
          | p :: splitre' =>
              split_and_chunk (fun text' => summarize text' splitre' prompt)
                p text prompt tr
          end).
Proof.
  intros Hb tcount. repeat split.
  - intros Hle. unfold commit_message, bind, emit. fold tcount.
    rewrite (budget_ok b _ Hb). apply Z.leb_le in Hle. rewrite Hle.
    unfold ask. now rewrite <- !app_assoc.
  - intros Hle. now apply (summarize_base b).
  - intros Hlt. unfold commit_message. fold tcount.
    unfold bind at 1. unfold emit at 1. unfold bind at 1.
    rewrite (budget_ok b _ Hb). apply Z.leb_gt in Hlt. rewrite Hlt.
    unfold bind at 1. unfold emit at 1.
    match goal with |- context [bind ?m ?k (?t0 ++ [?w])] =>
      assert (Hext : extends (bind m k)) end.
    { apply extends_bind; [apply extends_summarize|]. intros sums.
      apply extends_bind; [apply extends_compress|]. intros ro.
      apply extends_bind; [apply extends_ask | intros; apply extends_ret]. }
    destruct (Hext ((tr ++ [Info_tokens tcount]) ++ [Warning_too_long tcount]))
      as [evs Hevs].
    exists evs. rewrite Hevs. now rewrite <- !app_assoc.
  - intros Hlt. now apply (summarize_over b).
Qed.

(** C6.  One turn of the loop of lines 77-90 adds the part to the current
    chunk, and closes nothing, when the running total with the part stays
    under the budget; it closes the chunk, hands its text on and starts a
    new chunk with the part when the total would reach or exceed the
    budget.  So the loop, started on [parts[0]], forms the chunks of the
    greedy ChunkAssembler of the specification: it closes them in order,
    all but the last, which is the chunk still open when the loop ends.
    For parts of 5, 5 and 5 tokens and a budget of 12 the chunks are
    [[p0; p1]] and [[p2]]. *)
Theorem greedy_chunk_assembly b self prompt tr :
  table !! model = Some b ->
  (forall st part,
     chunk_tcount st + get_num_tokens part < b ->
     loop_body self prompt st part tr
     = (Ok (LoopState (chunk st ++ [part])
              (chunk_tcount st + get_num_tokens part) (summaries st)), tr))
  /\ (forall st part,
        b <= chunk_tcount st + get_num_tokens part ->
        loop_body self prompt st part tr
        = (let* new := summarize_chunk self prompt (join "" (chunk st)) in
           ret (LoopState [part] (get_num_tokens part) (summaries st ++ new))) tr)
  /\ (forall part0 parts sums,
        let chunks := ChunkAssembler get_num_tokens b (part0 :: parts) in
        for_parts self prompt parts
          (LoopState [part0] (get_num_tokens part0) sums) tr
        = (let* sums' := summarize_chunks self prompt (removelast chunks) sums in
           ret (LoopState (List.last chunks []) (sum_tokens (List.last chunks []))
                  sums')) tr)
  /\ (forall p0 p1 p2,
        b = 12 ->
        get_num_tokens p0 = 5 -> get_num_tokens p1 = 5 -> get_num_tokens p2 = 5 ->
        ChunkAssembler get_num_tokens b [p0; p1; p2] = [[p0; p1]; [p2]]
        /\ for_parts self prompt [p1; p2] (LoopState [p0] (get_num_tokens p0) []) tr
           = (let* new := summarize_chunk self prompt (p0 +:+ p1) in
              ret (LoopState [p2] 5 new)) tr).
Proof.
  intros Hb.
  assert (Hloop : forall part0 parts sums,
     for_parts self prompt parts (LoopState [part0] (get_num_tokens part0) sums) tr
     = (let* sums' := summarize_chunks self prompt
                        (removelast (ChunkAssembler get_num_tokens b (part0 :: parts)))
                        sums in
        ret (LoopState (List.last (ChunkAssembler get_num_tokens b (part0 :: parts)) [])
               (sum_tokens (List.last (ChunkAssembler get_num_tokens b (part0 :: parts)) []))
               sums')) tr).
  { intros part0 parts sums. unfold ChunkAssembler.
    rewrite <- (sum_tokens_single part0).
    exact (for_parts_assemble b self prompt parts Hb [part0] sums tr). }
  split; [|split; [|split; [exact Hloop|]]].
  - intros st part Hlt. unfold loop_body.
    rewrite (bind_ok _ _ _ _ _ (budget_ok b tr Hb)), Z.geb_leb.
    apply Z.leb_gt in Hlt. now rewrite Hlt.
  - intros st part Hle. unfold loop_body.
    rewrite (bind_ok _ _ _ _ _ (budget_ok b tr Hb)), Z.geb_leb.
    apply Z.leb_le in Hle. rewrite Hle.
    unfold close_chunk. rewrite !bind_assoc. apply bind_ext.
    intros new tr'. reflexivity.
  - intros p0 p1 p2 -> H0 H1 H2.
    assert (Hchunks : ChunkAssembler get_num_tokens 12 [p0; p1; p2]
                      = [[p0; p1]; [p2]]).
    { unfold ChunkAssembler. cbn [assemble]. rewrite H0, H1. cbn [app].
      change (5 + 5 <? 12) with true. cbv iota. rewrite H2. reflexivity. }
    split; [exact Hchunks|].
    rewrite Hloop, Hchunks. cbn [removelast List.last summarize_chunks app].
    rewrite sum_tokens_single, H2, bind_assoc.
    apply bind_ext. intros new tr'. reflexivity.
Qed.

(** C7.  The recursive call of line 85 is made on the rest of the ladder,
    so a call on a ladder of [k] patterns never nests more than [k]
    further calls: with [k] frames allowed it is never cut off and returns
    what [summarize] returns. *)
Theorem recursion_depth_bounded splitre depth text prompt tr :
  (length splitre <= depth)%nat ->
  summarize_at depth text splitre prompt tr = summarize text splitre prompt tr
  /\ fst (summarize_at depth text splitre prompt tr) <> OutOfFuel
  /\ (forall b p splitre',
        table !! model = Some b ->
        b < get_num_tokens (prompt +:+ text) ->
        splitre = p :: splitre' ->
        summarize text splitre prompt tr
        = split_and_chunk (fun text' => summarize text' splitre' prompt)
            p text prompt tr).
Proof.
  intros Hd. split; [now apply summarize_at_enough|]. split.
  - rewrite summarize_at_enough by exact Hd. apply completes_summarize.
  - intros b p splitre' Hb Hover ->. now apply (summarize_over b).
Qed.

(** Every document that [commit_message] returns for an over-budget
    diff comes from a first pass and a run of compression passes. *)
Lemma commit_message_inv b fuel diff prompt tr doc tr' :
  table !! model = Some b ->
  let tcount := get_num_tokens (prompt +:+ diff) in
  b < tcount ->
  commit_message fuel diff prompt tr = (Ok doc, tr') ->
  exists summaries1 tr1 layers overall tr2,
    summarize diff default_splitre summarize_prompt
      (tr ++ [Info_tokens tcount; Warning_too_long tcount]) = (Ok summaries1, tr1)
    /\ compression_run b prompt (join (nl +:+ nl) summaries1) tr1 layers overall tr2
    /\ get_num_tokens (prompt +:+ overall) <= b
    /\ (length layers <= fuel)%nat
    /\ doc = join (nl +:+ nl)
               (llm_ask tr2 (prompt +:+ overall)
                :: prepend_layers layers ([more_detail] ++ summaries1))
    /\ tr' = tr2 ++ [Ask (prompt +:+ overall)].
Proof.
  intros Hb tcount Hover H. unfold commit_message in H. fold tcount in H.
  unfold bind at 1 in H. unfold emit at 1 in H. unfold bind at 1 in H.
  rewrite (budget_ok b _ Hb) in H. apply Z.leb_gt in Hover. rewrite Hover in H.
  unfold bind at 1 in H. unfold emit at 1 in H.
  rewrite <- List.app_assoc in H. cbn [app] in H.
  unfold bind at 1 in H.
  destruct (summarize diff default_splitre summarize_prompt _)
    as [[summaries1|e|] tr1] eqn:Hsum; try discriminate.
  unfold bind at 1 in H.
  destruct (compress fuel prompt _ _ tr1) as [[[result overall]|e|] tr2] eqn:Hc;
    try discriminate.
  apply (compress_inv b) in Hc as (layers & Hrun & Hfit & Hlen & ->); [|exact Hb].
  unfold bind, ask, ret in H. cbn [fst snd] in H. injection H as <- <-.
  exists summaries1, tr1, layers, overall, tr2. repeat split; auto.
Qed.

(** C9.  A run of [commit_message] that summarizes: after the first pass
    [summaries1] and the compression passes [layers], the document is the
    final answer, then the layers from the newest to the oldest, each
    followed by the heading, then the heading and the first summaries,
    joined by blank lines.  The final answer is the first section; when
    no answer of the LLM is itself the heading, there are as many
    headings as passes, three for three passes; and the loop makes no
    further pass once [prompt + overall_summary] fits. *)
Theorem layered_document b fuel diff prompt tr summaries1 tr1 layers overall tr2 :
  table !! model = Some b ->
  let tcount := get_num_tokens (prompt +:+ diff) in
  b < tcount ->
  summarize diff default_splitre summarize_prompt
    (tr ++ [Info_tokens tcount; Warning_too_long tcount]) = (Ok summaries1, tr1) ->
  compression_run b prompt (join (nl +:+ nl) summaries1) tr1 layers overall tr2 ->
  get_num_tokens (prompt +:+ overall) <= b ->
  (length layers <= fuel)%nat ->
  let final := llm_ask tr2 (prompt +:+ overall) in
  let sections := final :: prepend_layers layers ([more_detail] ++ summaries1) in
  commit_message fuel diff prompt tr
  = (Ok (join (nl +:+ nl) sections), tr2 ++ [Ask (prompt +:+ overall)])
  /\ sections !! O = Some final
  /\ ((forall history query, llm_ask history query <> more_detail) ->
      headings sections = S (length layers))
  /\ (forall layer2 layer3,
        layers = [layer2; layer3] ->
        sections = [final] ++ layer3 ++ [more_detail] ++ layer2 ++ [more_detail]
                     ++ [more_detail] ++ summaries1)
  /\ (forall result,
        compress fuel prompt result overall tr2 = (Ok (result, overall), tr2))
  /\ (get_num_tokens (prompt +:+ join (nl +:+ nl) summaries1) <= b -> layers = []).
Proof.
  intros Hb tcount Hover Hsum Hrun Hfit Hfuel final sections.
  split; [|split; [|split; [|split; [|split]]]].
  - unfold commit_message. fold tcount.
    unfold bind at 1. unfold emit at 1. unfold bind at 1.
    rewrite (budget_ok b _ Hb). apply Z.leb_gt in Hover. rewrite Hover.
    unfold bind at 1. unfold emit at 1.
    rewrite <- List.app_assoc. cbn [app].
    rewrite (bind_ok _ _ _ _ _ Hsum).
    rewrite (bind_ok _ _ _ _ _
               (compress_run b prompt layers Hb fuel _ _ _ _ _ Hrun Hfit Hfuel)).
    reflexivity.
  - reflexivity.
  - intros Hno. unfold sections.
    change (final :: ?l) with ([final] ++ l). rewrite headings_app.
    rewrite headings_prepend_layers;
      [| exact Hno | eapply compression_run_answers, Hrun].
    rewrite headings_app, (headings_answers summaries1 Hno)
      by (eapply answers_summarize, Hsum).
    unfold headings. rewrite filter_cons_False by apply Hno.
    rewrite filter_cons_True by reflexivity. simpl. lia.
  - intros layer2 layer3 ->. reflexivity.
  - intros result. now apply (compress_fits b).
  - intros Hle. destruct layers as [|l rest]; [reflexivity|].
    destruct Hrun as [Hlt _]. lia.
Qed.

(** C3, as the code has it.  Called with no pattern left on a text that
    is over the budget with the prompt, [summarize] raises [IndexError]
    (line 64 indexes the empty ladder) without any request to the LLM;
    and a pass on the last rung whose loop closes such a chunk ends with
    that exception. *)
Theorem empty_ladder_index_error b text prompt tr :
  table !! model = Some b ->
  b < get_num_tokens (prompt +:+ text) ->
  summarize text [] prompt tr = (Raise IndexError, tr)
  /\ (forall p text0 c,
        b < get_num_tokens (prompt +:+ text0) ->
        In c (removelast (ChunkAssembler get_num_tokens b (split_parts p text0))) ->
        join "" c = text ->
        b < get_num_tokens text ->
        exists tr', summarize text0 [p] prompt tr = (Raise IndexError, tr')).
Proof.
  intros Hb Hover. split; [now apply (summarize_over b)|].
  intros p text0 c Hover0 Hin <- Hc.
  rewrite (summarize_over_chunks b) by assumption.
  eapply summarize_chunks_last_rung; eassumption.
Qed.

(** C2, as the code has it.  For [^(diff )] and [^$] the parts put side
    by side are the text; there is always a first part, and under
    [^(diff )] every part after it starts with ["diff "]. *)
Theorem split_parts_rejoin (text : string) :
  join "" (split_parts Re.Diff text) = text
  /\ join "" (split_parts Re.Blank text) = text
  /\ (forall p, split_parts p text <> [])
  /\ Forall (fun part => String.prefix "diff " part = true)
       (tail (split_parts Re.Diff text)).
Proof.
  assert (H : forall p, Re.keeps_delimiter p = true ->
                        join "" (split_parts p text) = text).
  { intros p Hp. unfold split_parts. rewrite recombine_join.
    unfold Re.split. rewrite split_from_join by (simpl; auto using Nat.le_0_l).
    reflexivity. }
  repeat split; try (apply H; reflexivity).
  - intros p. apply split_parts_nonempty.
  - apply recombine_diff_tail. constructor.
Qed.

(** ** Further properties of the splitting *)

Lemma split_newline_join prev s :
  join "" (Re.split_from Re.Newline prev O s) = remove_lf s.
Proof.
  revert prev. induction s as [|c s IH]; intros prev; [reflexivity|].
  cbn [Re.split_from Re.match_at remove_lf]. rewrite prefix_nl.
  destruct (ascii_dec LF c) as [<-|Hc].
  - cbn [Re.groups app]. rewrite join_empty_cons, IH. reflexivity.
  - rewrite join_push, IH.
    destruct (Ascii.eqb_spec c LF); [congruence | reflexivity].
Qed.

(** X1.  Under ["\n"] the parts are always one part: the text with every
    line feed taken out. *)
Theorem newline_rung_one_part (text : string) :
  split_parts Re.Newline text = [remove_lf text].
Proof.
  destruct (split_parts_newline text) as [part Hpart].
  rewrite Hpart. f_equal.
  assert (H : join "" (split_parts Re.Newline text) = remove_lf text).
  { unfold split_parts. rewrite recombine_join. apply split_newline_join. }
  rewrite Hpart in H. exact H.
Qed.

Lemma recombine_keeps_first (p : Re.pattern) (parts : list string) :
  forall (x : string) (acc : list string),
    acc <> [] ->
    recombine p parts (x :: acc) = x :: recombine p parts acc.
Proof.
  induction parts as [|part rest IH]; intros x acc Hacc; [reflexivity|].
  cbn [recombine]. rewrite !bool_decide_eq_false_2 by (try exact Hacc; discriminate).
  destruct (Re.matches p part || false).
  - rewrite <- app_comm_cons. apply IH. now destruct acc.
  - destruct acc as [|y acc]; [contradiction|].
    change (add_to_last (x :: y :: acc) part) with (x :: add_to_last (y :: acc) part).
    apply IH. intros E. apply (f_equal length) in E.
    rewrite add_to_last_length in E. discriminate.
Qed.

Lemma recombine_head (p : Re.pattern) (parts : list string) :
  forall (y : string) (acc : list string),
    exists z l, recombine p parts (y :: acc) = z :: l.
Proof.
  intros y acc. pose proof (recombine_length_ge p parts (y :: acc)) as H.
  destruct (recombine p parts (y :: acc)) as [|z l]; [simpl in H; lia | eauto].
Qed.

(** X2.  A text that starts with ["diff "], as the output of [git diff]
    does, has an empty first part under [^(diff )], followed by at least
    one part that starts with ["diff "]. *)
Theorem diff_header_empty_first_part (text : string) :
  String.prefix "diff " text = true ->
  exists part parts,
    split_parts Re.Diff text = "" :: part :: parts
    /\ String.prefix "diff " part = true.
Proof.
  intros Hpre. unfold split_parts, Re.split.
  assert (Hsplit : exists c s k,
            text = String c s /\
            Re.split_from Re.Diff None O text
            = "" :: "diff " :: Re.split_from Re.Diff (Some c) k s).
  { destruct text as [|c s]; [discriminate|].
    exists c, s, 4%nat. split; [reflexivity|].
    cbn [Re.split_from Re.match_at Re.at_line_start andb]. rewrite Hpre.
    reflexivity. }
  destruct Hsplit as (c & s & k & -> & ->).
  cbn [recombine]. rewrite bool_decide_eq_true_2, orb_true_r by reflexivity.
  cbn [app recombine]. rewrite matches_diff.
  change (String.prefix "diff " "diff ") with true. cbn [orb app].
  rewrite recombine_keeps_first by discriminate.
  destruct (recombine_head Re.Diff (Re.split_from Re.Diff (Some c) k s) "diff " [])
    as (z & l & Hz).
  exists z, l. split; [now rewrite Hz|].
  pose proof (recombine_diff_tail (Re.split_from Re.Diff (Some c) k s) [""; "diff "]
                ltac:(repeat constructor)) as Htail.
  rewrite recombine_keeps_first, Hz in Htail by discriminate.
  cbn [tail] in Htail. now inversion Htail.
Qed.

(** ** Further properties of the chunking loop *)

Lemma assemble_concat b current total parts :
  concat (assemble get_num_tokens b current total parts) = current ++ parts.
Proof.
  revert current total. induction parts as [|part rest IH]; intros current total;
    cbn [assemble].
  - cbn [concat]. now rewrite !app_nil_r.
  - destruct (total + get_num_tokens part <? b).
    + rewrite IH, <- List.app_assoc. reflexivity.
    + cbn [concat]. rewrite IH. reflexivity.
Qed.

Lemma assemble_chunks_nonempty b parts :
  forall current total,
    current <> [] ->
    Forall (fun c => c <> []) (assemble get_num_tokens b current total parts).
Proof.
  induction parts as [|part rest IH]; intros current total Hne; cbn [assemble].
  - now repeat constructor.
  - destruct (total + get_num_tokens part <? b).
    + apply IH. now destruct current.
    + constructor; [exact Hne | apply IH; discriminate].
Qed.

Lemma assemble_head b parts :
  forall current total,
    exists more rest,
      assemble get_num_tokens b current total parts = (current ++ more) :: rest.
Proof.
  induction parts as [|part rest' IH]; intros current total; cbn [assemble].
  - exists [], []. now rewrite app_nil_r.
  - destruct (total + get_num_tokens part <? b).
    + destruct (IH (current ++ [part]) (total + get_num_tokens part))
        as (more & rest & ->).
      exists (part :: more), rest. now rewrite <- List.app_assoc.
    + exists [], (assemble get_num_tokens b [part] (get_num_tokens part) rest').
      now rewrite app_nil_r.
Qed.

Lemma assemble_under_budget b parts :
  forall current,
    ((2 <= length current)%nat -> sum_tokens current < b) ->
    Forall (fun c => (2 <= length c)%nat -> sum_tokens c < b)
      (assemble get_num_tokens b current (sum_tokens current) parts).
Proof.
  induction parts as [|part rest IH]; intros current Hcur; cbn [assemble].
  - now repeat constructor.
  - destruct (sum_tokens current + get_num_tokens part <? b) eqn:E.
    + replace (sum_tokens current + get_num_tokens part)
        with (sum_tokens (current ++ [part]))
        by (rewrite sum_tokens_app, sum_tokens_single; reflexivity).
      apply IH. intros _. rewrite sum_tokens_app, sum_tokens_single.
      now apply Z.ltb_lt.
    + constructor; [exact Hcur|].
      rewrite <- (sum_tokens_single part). apply IH. simpl. lia.
Qed.

Lemma assemble_boundaries b parts :
  forall current,
    boundaries (fun c part => b <= sum_tokens c + get_num_tokens part)
      (assemble get_num_tokens b current (sum_tokens current) parts).
Proof.
  induction parts as [|part rest IH]; intros current; cbn [assemble].
  - simpl. auto.
  - destruct (sum_tokens current + get_num_tokens part <? b) eqn:E.
    + replace (sum_tokens current + get_num_tokens part)
        with (sum_tokens (current ++ [part]))
        by (rewrite sum_tokens_app, sum_tokens_single; reflexivity).
      apply IH.
    + cbn [boundaries]. split.
      * destruct (assemble_head b rest [part] (get_num_tokens part))
          as (more & rest' & ->).
        cbn [app]. now apply Z.ltb_ge.
      * rewrite <- (sum_tokens_single part). apply IH.
Qed.

(** X3.  The loop of lines 75-90 cuts the parts into chunks without
    losing or reordering any: the chunks it closes, followed by the one
    still open at the end, are the parts in order, and none is empty.  A
    chunk of several parts has a running total under the budget, and a
    chunk is closed only when the part that starts the next one would
    bring the total to the budget or over it. *)
Theorem loop_partitions_parts b self prompt part0 parts sums tr :
  table !! model = Some b ->
  exists chunks,
    concat chunks = part0 :: parts
    /\ chunks <> []
    /\ Forall (fun c => c <> []) chunks
    /\ Forall (fun c => (2 <= length c)%nat -> sum_tokens c < b) chunks
    /\ boundaries (fun c part => b <= sum_tokens c + get_num_tokens part) chunks
    /\ for_parts self prompt parts
         (LoopState [part0] (get_num_tokens part0) sums) tr
       = (let* sums' := summarize_chunks self prompt (removelast chunks) sums in
          ret (LoopState (List.last chunks []) (sum_tokens (List.last chunks []))
                 sums')) tr.
Proof.
  intros Hb.
  exists (assemble get_num_tokens b [part0] (sum_tokens [part0]) parts).
  split; [apply assemble_concat|]. split; [apply assemble_nonempty|].
  split; [apply assemble_chunks_nonempty; discriminate|].
  split; [apply assemble_under_budget; simpl; lia|].
  split; [apply assemble_boundaries|].
  rewrite <- (sum_tokens_single part0) at 1.
  exact (for_parts_assemble b self prompt parts Hb [part0] sums tr).
Qed.

(** ** Requests and summaries *)

Lemma replay_app tr queries1 queries2 :
  replay tr (queries1 ++ queries2)
  = replay tr queries1 ++ replay (tr ++ map Ask queries1) queries2.
Proof.
  revert tr. induction queries1 as [|q qs IH]; intros tr; cbn [app replay map].
  - now rewrite app_nil_r.
  - rewrite IH, <- List.app_assoc. reflexivity.
Qed.

Lemma replay_length tr queries : length (replay tr queries) = length queries.
Proof.
  revert tr. induction queries as [|q qs IH]; intros tr; [reflexivity|].
  cbn [replay length]. now rewrite IH.
Qed.

Lemma summarize_chunks_replay self prompt :
  (forall text tr l tr',
     self text tr = (Ok l, tr') ->
     exists queries, tr' = tr ++ map Ask queries /\ l = replay tr queries) ->
  forall chunks sums tr l tr',
    summarize_chunks self prompt chunks sums tr = (Ok l, tr') ->
    exists queries, tr' = tr ++ map Ask queries /\ l = sums ++ replay tr queries.
Proof.
  intros Hself. induction chunks as [|c rest IH]; intros sums tr l tr' H.
  - injection H as <- <-. exists []. cbn [map replay]. now rewrite !app_nil_r.
  - cbn [summarize_chunks] in H. unfold bind at 1 in H.
    destruct (summarize_chunk self prompt (join "" c) tr) as [[new|e|] tr1] eqn:E;
      try discriminate.
    assert (Hnew : exists queries,
               tr1 = tr ++ map Ask queries /\ new = replay tr queries).
    { unfold summarize_chunk, bind in E.
      destruct (budget tr) as [[b|e|] tr0] eqn:Eb; try discriminate.
      assert (tr0 = tr) as ->.
      { unfold budget in Eb. destruct (table !! model); now injection Eb. }
      destruct (get_num_tokens (join "" c) >? b); [exact (Hself _ _ _ _ E)|].
      unfold ask, ret in E. injection E as <- <-.
      now exists [prompt +:+ join "" c]. }
    destruct Hnew as (qs1 & -> & ->).
    apply IH in H as (qs2 & -> & ->).
    exists (qs1 ++ qs2).
    now rewrite map_app, replay_app, !List.app_assoc.
Qed.

(** X4.  What [summarize] returns are the answers to the requests it
    made, one summary for each request and in the order of the requests;
    it makes requests and nothing else. *)
Theorem summaries_answer_requests splitre : forall text prompt tr l tr',
  summarize text splitre prompt tr = (Ok l, tr') ->
  exists queries,
    tr' = tr ++ map Ask queries
    /\ l = replay tr queries
    /\ length l = length queries.
Proof.
  assert (H : forall text prompt tr l tr',
             summarize text splitre prompt tr = (Ok l, tr') ->
             exists queries, tr' = tr ++ map Ask queries /\ l = replay tr queries).
  { induction splitre as [|p splitre' IH]; intros text prompt tr l tr' H;
      rewrite summarize_unfold in H; unfold bind at 1 in H;
      destruct (budget tr) as [[b|e|] tr0] eqn:Eb; try discriminate;
      (assert (tr0 = tr /\ table !! model = Some b) as [-> Hb]
         by (unfold budget in Eb; destruct (table !! model);
             [injection Eb as <- <-; auto | discriminate]));
      (destruct (get_num_tokens (prompt +:+ text) <=? b);
         [unfold base_case, bind, ask, ret in H; injection H as <- <-;
          now exists [prompt +:+ text]|]).
    - discriminate.
    - rewrite (split_and_chunk_assemble b) in H by exact Hb.
      eapply summarize_chunks_replay in H; [exact H|].
      intros text' tr1 l1 tr1'. apply IH. }
  intros text prompt tr l tr' Hrun.
  destruct (H _ _ _ _ _ Hrun) as (queries & -> & ->).
  exists queries. repeat split. apply replay_length.
Qed.

Lemma summarize_chunks_fit b self prompt chunks :
  table !! model = Some b ->
  Forall (fun c => get_num_tokens (join "" c) <= b) chunks ->
  forall sums tr,
    summarize_chunks self prompt chunks sums tr
    = (Ok (sums ++ replay tr (map (fun c => prompt +:+ join "" c) chunks)),
       tr ++ map Ask (map (fun c => prompt +:+ join "" c) chunks)).
Proof.
  intros Hb Hall. induction Hall as [|c rest Hc _ IH]; intros sums tr.
  - cbn [summarize_chunks map replay]. now rewrite !app_nil_r.
  - cbn [summarize_chunks map replay]. unfold bind at 1. unfold summarize_chunk.
    rewrite (bind_ok _ _ _ _ _ (budget_ok b tr Hb)).
    rewrite Z.gtb_ltb. apply Z.ltb_ge in Hc. rewrite Hc.
    unfold bind, ask, ret. rewrite IH.
    now rewrite <- !List.app_assoc.
Qed.

(** X5.  When every chunk that a pass closes is within the budget, the
    pass makes one request for each chunk of the assembly but the last,
    the prompt followed by the chunk, in the order of the chunks, and
    returns the answers; the last chunk is in no request. *)
Theorem one_request_per_closed_chunk b p splitre' text prompt tr :
  table !! model = Some b ->
  b < get_num_tokens (prompt +:+ text) ->
  let closed := removelast (ChunkAssembler get_num_tokens b (split_parts p text)) in
  Forall (fun c => get_num_tokens (join "" c) <= b) closed ->
  let queries := map (fun c => prompt +:+ join "" c) closed in
  summarize text (p :: splitre') prompt tr
  = (Ok (replay tr queries), tr ++ map Ask queries).
Proof.
  intros Hb Hover closed Hfit queries.
  rewrite (summarize_over_chunks b) by assumption.
  exact (summarize_chunks_fit b _ prompt closed Hb Hfit [] tr).
Qed.

(** ** What the requests hold *)

Lemma substring_refl (text : string) : substring text text.
Proof. exists "", "". now rewrite append_nil_r. Qed.

Lemma substring_trans (a b c : string) :
  substring a b -> substring b c -> substring a c.
Proof.
  intros (p1 & s1 & ->) (p2 & s2 & ->).
  exists (p2 +:+ p1), (s1 +:+ s2). now rewrite !append_assoc.
Qed.

Lemma run_of_substring (chunk parts : list string) :
  run_of chunk parts -> substring (join "" chunk) (join "" parts).
Proof.
  intros (before & after & ->).
  exists (join "" before), (join "" after). now rewrite !join_empty_app.
Qed.

Lemma assemble_runs b parts :
  forall current total c,
    In c (assemble get_num_tokens b current total parts) ->
    run_of c (current ++ parts).
Proof.
  induction parts as [|part rest IH]; intros current total c Hin;
    cbn [assemble] in Hin.
  - destruct Hin as [<-|[]]. exists [], []. reflexivity.
  - destruct (total + get_num_tokens part <? b).
    + apply IH in Hin. now rewrite <- List.app_assoc in Hin.
    + destruct Hin as [<-|Hin].
      * exists [], (part :: rest). reflexivity.
      * apply IH in Hin as (before & after & E).
        exists (current ++ before), after.
        cbn [app] in E. rewrite <- List.app_assoc, <- E. reflexivity.
Qed.

Lemma in_removelast {A} (x : A) (l : list A) : In x (removelast l) -> In x l.
Proof.
  induction l as [|y l IH]; [contradiction|].
  destruct l as [|z l]; [contradiction|].
  intros [<-|H]; [now left | right; now apply IH].
Qed.

(** The texts of the chunks a pass closes are stretches of the text, for
    any pattern: [^(diff )] and [^$] lose nothing, and under ["\n"] no
    chunk is closed. *)
Lemma closed_chunks_substrings b p text c :
  In c (removelast (ChunkAssembler get_num_tokens b (split_parts p text))) ->
  substring (join "" c) text.
Proof.
  intros Hin. destruct p.
  - apply in_removelast in Hin. unfold ChunkAssembler in Hin.
    assert (Hjoin : join "" (split_parts Re.Diff text) = text)
      by (unfold split_parts, Re.split;
          now rewrite recombine_join, split_from_join by (simpl; auto using Nat.le_0_l)).
    destruct (split_parts Re.Diff text) as [|part0 parts]; [contradiction|].
    apply assemble_runs in Hin. apply run_of_substring in Hin.
    cbn [app] in Hin. now rewrite Hjoin in Hin.
  - apply in_removelast in Hin. unfold ChunkAssembler in Hin.
    assert (Hjoin : join "" (split_parts Re.Blank text) = text)
      by (unfold split_parts, Re.split;
          now rewrite recombine_join, split_from_join by (simpl; auto using Nat.le_0_l)).
    destruct (split_parts Re.Blank text) as [|part0 parts]; [contradiction|].
    apply assemble_runs in Hin. apply run_of_substring in Hin.
    cbn [app] in Hin. now rewrite Hjoin in Hin.
  - destruct (split_parts_newline text) as [part E]. rewrite E in Hin.
    contradiction.
Qed.

Lemma asks_only_weaken {A} (ok ok' : string -> Prop) (m : M A) :
  (forall q, ok q -> ok' q) -> asks_only ok m -> asks_only ok' m.
Proof.
  intros Himp Hm tr. destruct (Hm tr) as (qs & E & Hall).
  exists qs. split; [exact E|]. eapply Forall_impl; eauto.
Qed.

Lemma asks_only_silent {A} (ok : string -> Prop) (m : M A) :
  (forall tr, snd (m tr) = tr) -> asks_only ok m.
Proof. intros H tr. exists []. rewrite H. cbn [map]. now rewrite app_nil_r. Qed.

Lemma asks_only_bind {A B} (ok : string -> Prop) (m : M A) (k : A -> M B) :
  asks_only ok m -> (forall a, asks_only ok (k a)) -> asks_only ok (bind m k).
Proof.
  intros Hm Hk tr. unfold bind. destruct (Hm tr) as (qs & E & Hall).
  destruct (m tr) as [[a|e|] tr1]; simpl in E; subst; simpl; eauto.
  destruct (Hk a (tr ++ map Ask qs)) as (qs' & E' & Hall').
  exists (qs ++ qs'). rewrite E', map_app, List.app_assoc.
  split; [reflexivity | now apply Forall_app].
Qed.

Lemma asks_only_ask (ok : string -> Prop) query :
  ok query -> asks_only ok (ask query).
Proof. intros H tr. exists [query]. split; [reflexivity | now constructor]. Qed.

Lemma asks_only_budget (ok : string -> Prop) : asks_only ok budget.
Proof.
  apply asks_only_silent. intros tr. unfold budget.
  now destruct (table !! model).
Qed.

Lemma asks_only_summarize_chunks (ok : string -> Prop) self prompt chunks :
  (forall c, In c chunks -> asks_only ok (self (join "" c))) ->
  (forall c, In c chunks -> ok (prompt +:+ join "" c)) ->
  forall sums, asks_only ok (summarize_chunks self prompt chunks sums).
Proof.
  induction chunks as [|c rest IH]; intros Hself Hok sums;
    cbn [summarize_chunks].
  - now apply asks_only_silent.
  - apply asks_only_bind.
    + unfold summarize_chunk. apply asks_only_bind; [apply asks_only_budget|].
      intros b. destruct (get_num_tokens (join "" c) >? b).
      * apply Hself. now left.
      * apply asks_only_bind; [apply asks_only_ask, Hok; now left|].
        intros a. now apply asks_only_silent.
    + intros new. apply IH; intros c' Hc'; [apply Hself | apply Hok]; now right.
Qed.

(** X6.  Every request of [summarize], on any ladder and however the run
    ends, is the prompt followed by a stretch of the text it was called
    on: the LLM is shown pieces of the diff as they are and nothing
    else. *)
Theorem requests_are_prompt_and_piece splitre : forall text prompt,
  asks_only (fun query => exists piece,
               query = prompt +:+ piece /\ substring piece text)
    (summarize text splitre prompt).
Proof.
  induction splitre as [|p splitre' IH]; intros text prompt tr;
    (destruct (table !! model) as [b|] eqn:Hb;
       [|exists []; rewrite summarize_no_budget by exact Hb;
         split; [simpl; now rewrite app_nil_r | constructor]]);
    (destruct (Z_lt_le_dec b (get_num_tokens (prompt +:+ text))) as [Hover|Hfit];
       [|exists [prompt +:+ text]; rewrite (summarize_base b) by assumption;
         split; [reflexivity|];
         repeat constructor; exists text; split;
         [reflexivity | apply substring_refl]]).
  - exists []. rewrite (summarize_over b) by assumption.
    split; [simpl; now rewrite app_nil_r | constructor].
  - rewrite (summarize_over_chunks b) by assumption.
    apply asks_only_summarize_chunks.
    + intros c Hc. eapply asks_only_weaken; [|apply IH].
      intros q (piece & -> & Hsub). exists piece. split; [reflexivity|].
      eapply substring_trans; [exact Hsub|].
      eapply closed_chunks_substrings, Hc.
    + intros c Hc. exists (join "" c). split; [reflexivity|].
      eapply closed_chunks_substrings, Hc.
Qed.

(** ** Runs that cannot fail *)

Lemma no_raise_bind {A B} (m : M A) (k : A -> M B) :
  no_raise m -> (forall a, no_raise (k a)) -> no_raise (bind m k).
Proof.
  intros Hm Hk tr e. unfold bind. specialize (Hm tr).
  destruct (m tr) as [[a|e'|] tr1]; simpl in *;
    [apply Hk | now destruct (Hm e') | discriminate].
Qed.

Lemma no_raise_ret {A} (a : A) : no_raise (ret a).
Proof. intros tr e. discriminate. Qed.

Lemma no_raise_ask query : no_raise (ask query).
Proof. intros tr e. discriminate. Qed.

Lemma no_raise_emit e : no_raise (emit e).
Proof. intros tr e'. discriminate. Qed.

Lemma no_raise_out_of_fuel {A} : no_raise (@out_of_fuel A).
Proof. intros tr e. discriminate. Qed.

Lemma no_raise_budget b : table !! model = Some b -> no_raise budget.
Proof. intros Hb tr e. unfold budget. rewrite Hb. discriminate. Qed.

Create HintDb no_raise.
Local Hint Resolve no_raise_ret no_raise_ask no_raise_emit no_raise_out_of_fuel
  : no_raise.

Lemma no_raise_for_parts b self prompt parts :
  table !! model = Some b ->
  (forall text', no_raise (self text')) ->
  forall st, no_raise (for_parts self prompt parts st).
Proof.
  intros Hb H. pose proof (no_raise_budget b Hb) as Hbudget.
  induction parts as [|part rest IH]; intros st; cbn [for_parts];
    auto with no_raise.
  apply no_raise_bind; [|exact IH].
  unfold loop_body. apply no_raise_bind; auto with no_raise. intros b0.
  apply no_raise_bind; auto with no_raise.
  destruct (chunk_tcount st + get_num_tokens part >=? b0); auto with no_raise.
  unfold close_chunk. apply no_raise_bind; auto with no_raise.
  unfold summarize_chunk. apply no_raise_bind; auto with no_raise. intros b'.
  destruct (get_num_tokens (join "" (chunk st)) >? b'); [apply H|].
  apply no_raise_bind; auto with no_raise.
Qed.

Lemma no_raise_summarize b ladder :
  table !! model = Some b ->
  forall text prompt, no_raise (summarize text (ladder ++ [Re.Newline]) prompt).
Proof.
  intros Hb. pose proof (no_raise_budget b Hb) as Hbudget.
  induction ladder as [|p ladder' IH]; intros text prompt tr;
    cbn [app]; rewrite summarize_unfold; revert tr;
    (apply no_raise_bind; [exact Hbudget|]); intros b0;
    (destruct (get_num_tokens (prompt +:+ text) <=? b0);
       [unfold base_case; apply no_raise_bind; auto with no_raise|]).
  - unfold split_and_chunk.
    destruct (split_parts_newline text) as [part ->]. cbn [for_parts].
    apply no_raise_bind; auto with no_raise.
  - unfold split_and_chunk. pose proof (split_parts_nonempty p text) as Hne.
    destruct (split_parts p text); [contradiction|].
    apply no_raise_bind; auto with no_raise.
    apply (no_raise_for_parts b); [exact Hb|]. intros text'. apply IH.
Qed.

Lemma no_raise_compress b fuel :
  table !! model = Some b ->
  forall prompt result overall_summary,
    no_raise (compress fuel prompt result overall_summary).
Proof.
  intros Hb. pose proof (no_raise_budget b Hb) as Hbudget.
  induction fuel as [|fuel' IH]; intros prompt result overall; cbn [compress];
    (apply no_raise_bind; [exact Hbudget|]); intros b0;
    destruct (get_num_tokens (prompt +:+ overall) <=? b0); auto with no_raise.
  apply no_raise_bind; [|intros; apply IH].
  exact (no_raise_summarize b [Re.Diff; Re.Blank] Hb overall compress_prompt).
Qed.

Lemma no_raise_commit_message b fuel diff prompt :
  table !! model = Some b -> no_raise (commit_message fuel diff prompt).
Proof.
  intros Hb. pose proof (no_raise_budget b Hb) as Hbudget.
  unfold commit_message. apply no_raise_bind; auto with no_raise. intros _.
  apply no_raise_bind; [exact Hbudget|]. intros b0.
  destruct (get_num_tokens (prompt +:+ diff) <=? b0).
  - apply no_raise_bind; auto with no_raise.
  - apply no_raise_bind; auto with no_raise. intros _.
    apply no_raise_bind;
      [exact (no_raise_summarize b [Re.Diff; Re.Blank] Hb diff summarize_prompt)|].
    intros sums. apply no_raise_bind; [now apply (no_raise_compress b)|].
    intros ro. apply no_raise_bind; auto with no_raise.
Qed.

(** X7.  With a model that is in the table, [summarize] on a ladder that
    ends with ["\n"], such as the default one, always returns a list of
    summaries: it raises nothing.  [commit_message] raises nothing
    either; it returns unless its loop goes on for ever. *)
Theorem registered_model_never_raises b ladder fuel text diff prompt tr :
  table !! model = Some b ->
  (exists l tr', summarize text (ladder ++ [Re.Newline]) prompt tr = (Ok l, tr'))
  /\ (exists l tr', summarize text default_splitre prompt tr = (Ok l, tr'))
  /\ (forall e, fst (commit_message fuel diff prompt tr) <> Raise e).
Proof.
  intros Hb.
  assert (Hsum : forall ladder',
            exists l tr',
              summarize text (ladder' ++ [Re.Newline]) prompt tr = (Ok l, tr')).
  { intros ladder'.
    pose proof (no_raise_summarize b ladder' Hb text prompt tr) as Hraise.
    pose proof (completes_summarize (ladder' ++ [Re.Newline]) text prompt tr) as Hdone.
    destruct (summarize text (ladder' ++ [Re.Newline]) prompt tr) as [[l|e|] tr'];
      simpl in *; [eauto | now destruct (Hraise e) | contradiction]. }
  split; [apply Hsum|]. split; [exact (Hsum [Re.Diff; Re.Blank])|].
  exact (no_raise_commit_message b fuel diff prompt Hb tr).
Qed.

(** X8.  When the first pattern of the ladder is ["\n"], an over-budget
    text gets no summary: the rung leaves it in one part, so nothing is
    asked and the empty list is returned. *)
Theorem newline_rung_returns_nothing b splitre' text prompt tr :
  table !! model = Some b ->
  b < get_num_tokens (prompt +:+ text) ->
  summarize text (Re.Newline :: splitre') prompt tr = (Ok [], tr).
Proof.
  intros Hb Hover. destruct (split_parts_newline text) as [part Hpart].
  now apply (summarize_single_part b Re.Newline splitre' text prompt tr part).
Qed.

(** ** The requests of [commit_message] *)

Lemma prefix_append_self (a x : string) : String.prefix a (a +:+ x) = true.
Proof.
  induction a as [|c a IH]; [now destruct x|].
  rewrite append_cons. cbn [String.prefix].
  destruct (ascii_dec c c); [exact IH | contradiction].
Qed.

Lemma prefix_join_head (sep a : string) (l : list string) :
  String.prefix a (join sep (a :: l)) = true.
Proof.
  unfold join. destruct l as [|y l]; cbn [String.concat].
  - rewrite <- (append_nil_r a) at 2. apply prefix_append_self.
  - apply prefix_append_self.
Qed.

Lemma compression_run_overall b prompt layers :
  forall overall_summary tr overall_summary' tr',
    compression_run b prompt overall_summary tr layers overall_summary' tr' ->
    overall_summary' = overall_summary
    \/ exists summaries,
         answers summaries /\ overall_summary' = join (nl +:+ nl) summaries.
Proof.
  induction layers as [|summaries rest IH]; intros overall tr overall' tr' Hrun.
  - destruct Hrun as [-> _]. now left.
  - destruct Hrun as [_ [tr1 [Hsum Hrun]]]. right.
    apply IH in Hrun as [->|Hlater]; [|exact Hlater].
    exists summaries. split; [eapply answers_summarize, Hsum | reflexivity].
Qed.

(** X9.  Whenever [commit_message] returns, the last event of the run is
    a request: the prompt followed by the diff, or by summaries of the
    LLM joined with blank lines.  That request is within the budget, and
    the document returned starts with the answer to it. *)
Theorem last_request_fits b fuel diff prompt tr doc tr' :
  table !! model = Some b ->
  commit_message fuel diff prompt tr = (Ok doc, tr') ->
  exists tr0 body,
    tr' = tr0 ++ [Ask (prompt +:+ body)]
    /\ (body = diff
        \/ exists summaries,
             answers summaries /\ body = join (nl +:+ nl) summaries)
    /\ get_num_tokens (prompt +:+ body) <= b
    /\ String.prefix (llm_ask tr0 (prompt +:+ body)) doc = true.
Proof.
  intros Hb Hrun.
  destruct (Z_lt_le_dec b (get_num_tokens (prompt +:+ diff))) as [Hover|Hfit].
  - destruct (commit_message_inv b fuel diff prompt tr doc tr' Hb Hover Hrun)
      as (s1 & tr1 & layers & overall & tr2 & Hsum & Hpasses & Hle & _ & -> & ->).
    exists tr2, overall. split; [reflexivity|]. split.
    + right. apply compression_run_overall in Hpasses as [->|Hlater];
        [|exact Hlater].
      exists s1. split; [eapply answers_summarize, Hsum | reflexivity].
    + split; [exact Hle | apply prefix_join_head].
  - unfold commit_message, bind, emit in Hrun.
    rewrite (budget_ok b _ Hb) in Hrun.
    pose proof Hfit as Hfit'. apply Z.leb_le in Hfit'. rewrite Hfit' in Hrun.
    unfold ask in Hrun. injection Hrun as <- <-.
    eexists _, diff. split; [reflexivity|]. split; [now left|].
    split; [exact Hfit|].
    rewrite <- (append_nil_r (llm_ask _ _)) at 2. apply prefix_append_self.
Qed.

(** X10.  An over-budget diff that [^(diff )] leaves in one part, one
    with no line that starts with ["diff "], is lost without a sign: the
    first pass returns no summary, the one request made is the bare
    prompt, and the document is the answer to it followed by the heading
    with nothing under it. *)
Theorem unsplit_diff_is_lost b fuel diff prompt tr part :
  table !! model = Some b ->
  let tcount := get_num_tokens (prompt +:+ diff) in
  b < tcount ->
  b < get_num_tokens (summarize_prompt +:+ diff) ->
  split_parts Re.Diff diff = [part] ->
  get_num_tokens prompt <= b ->
  let history := tr ++ [Info_tokens tcount; Warning_too_long tcount] in
  commit_message fuel diff prompt tr
  = (Ok (llm_ask history prompt +:+ nl +:+ nl +:+ more_detail),
     history ++ [Ask prompt]).
Proof.
  intros Hb tcount Hover Hover' Hparts Hprompt history.
  unfold commit_message. fold tcount.
  unfold bind at 1. unfold emit at 1. unfold bind at 1.
  rewrite (budget_ok b _ Hb). apply Z.leb_gt in Hover. rewrite Hover.
  unfold bind at 1. unfold emit at 1.
  rewrite <- List.app_assoc. cbn [app]. fold history.
  rewrite (bind_ok _ _ _ _ _
             (summarize_single_part b Re.Diff [Re.Blank; Re.Newline] diff
                summarize_prompt history part Hb Hover' Hparts)).
  change (join (nl +:+ nl) []) with "".
  rewrite (bind_ok _ _ _ _ _
             (compress_fits b fuel prompt ([more_detail] ++ []) "" history Hb
                ltac:(now rewrite append_nil_r))).
  unfold bind, ask, ret. cbn [fst snd app]. rewrite append_nil_r.
  reflexivity.
Qed.

(** ** The empty first part *)

Lemma extends_summarize_chunks self prompt chunks :
  (forall text', extends (self text')) ->
  forall sums, extends (summarize_chunks self prompt chunks sums).
Proof.
  intros H. induction chunks as [|c rest IH]; intros sums;
    cbn [summarize_chunks]; [apply extends_ret|].
  apply extends_bind; [now apply extends_summarize_chunk | intros; apply IH].
Qed.

Lemma summarize_chunks_keeps self prompt chunks :
  forall sums tr l tr',
    summarize_chunks self prompt chunks sums tr = (Ok l, tr') ->
    exists more, l = sums ++ more.
Proof.
  induction chunks as [|c rest IH]; intros sums tr l tr' H.
  - injection H as <- <-. exists []. now rewrite app_nil_r.
  - cbn [summarize_chunks] in H. unfold bind at 1 in H.
    destruct (summarize_chunk self prompt (join "" c) tr) as [[new|e|] tr1];
      try discriminate.
    apply IH in H as (more & ->). exists (new ++ more).
    now rewrite List.app_assoc.
Qed.

(** X11.  When the text starts with a header, so that its first part is
    empty, and the first file alone reaches the budget, the first thing
    a pass does is to close the chunk that holds the empty part only: it
    asks the LLM about the bare prompt, and the answer to that is the
    first summary. *)
Theorem empty_chunk_is_asked b splitre' text prompt tr part parts :
  table !! model = Some b ->
  b < get_num_tokens (prompt +:+ text) ->
  split_parts Re.Diff text = "" :: part :: parts ->
  get_num_tokens "" <= b ->
  b <= get_num_tokens "" + get_num_tokens part ->
  (exists evs,
     snd (summarize text (Re.Diff :: splitre') prompt tr) = tr ++ Ask prompt :: evs)
  /\ (forall l tr',
        summarize text (Re.Diff :: splitre') prompt tr = (Ok l, tr') ->
        exists more, l = llm_ask tr prompt :: more).
Proof.
  intros Hb Hover Hparts Hempty Hfull.
  assert (Heq : summarize text (Re.Diff :: splitre') prompt tr
                = summarize_chunks (fun text' => summarize text' splitre' prompt)
                    prompt
                    (removelast
                       (assemble get_num_tokens b [part] (get_num_tokens part) parts))
                    [llm_ask tr prompt] (tr ++ [Ask prompt])).
  { rewrite (summarize_over_chunks b) by assumption.
    rewrite Hparts. unfold ChunkAssembler. cbn [assemble].
    apply Z.ltb_ge in Hfull. rewrite Hfull.
    rewrite removelast_cons by apply assemble_nonempty.
    cbn [summarize_chunks]. unfold bind at 1. unfold summarize_chunk.
    rewrite (bind_ok _ _ _ _ _ (budget_ok b tr Hb)).
    change (join "" [""]) with "". rewrite Z.gtb_ltb.
    apply Z.ltb_ge in Hempty. rewrite Hempty.
    unfold bind, ask, ret. rewrite append_nil_r. reflexivity. }
  rewrite Heq. split.
  - destruct (extends_summarize_chunks
                (fun text' => summarize text' splitre' prompt) prompt
                (removelast
                   (assemble get_num_tokens b [part] (get_num_tokens part) parts))
                ltac:(intros; apply extends_summarize) [llm_ask tr prompt]
                (tr ++ [Ask prompt])) as [evs Hevs].
    exists evs. rewrite Hevs, <- List.app_assoc. reflexivity.
  - intros l tr' H. apply summarize_chunks_keeps in H as (more & ->).
    now exists more.
Qed.

(** ** The log file *)

Lemma log_all_other (p q : string) (texts : list string) :
  p <> q ->
  forall files, log_all (Some p) texts files !! q = files !! q.
Proof.
  intros Hpq. unfold log_all.
  induction texts as [|text rest IH]; intros files; [reflexivity|].
  cbn [fold_left]. rewrite IH. unfold log. now apply lookup_insert_ne.
Qed.

Lemma log_all_lines (p : string) (texts : list string) :
  forall files old,
    files !! p = Some old ->
    log_all (Some p) texts files !! p
    = Some (old +:+ join "" (map (fun text => text +:+ nl) texts)).
Proof.
  unfold log_all. induction texts as [|text rest IH]; intros files old Hold.
  - cbn [fold_left map]. change (join "" []) with "".
    now rewrite append_nil_r.
  - cbn [fold_left map]. rewrite join_empty_cons.
    erewrite IH; [|unfold log; apply lookup_insert_eq].
    rewrite Hold. cbn [default]. now rewrite append_assoc.
Qed.

(** X12.  Logging texts to a path leaves the file holding what it held
    before, or nothing when it was not there, followed by the texts in
    order, each ended by a line feed; no other file changes, and without
    a path no file changes. *)
Theorem log_appends_lines (p : string) (text : string) (texts : list string)
    (files : gmap string string) :
  log_all None (text :: texts) files = files
  /\ log_all (Some p) (text :: texts) files !! p
     = Some (default "" (files !! p)
             +:+ join "" (map (fun text => text +:+ nl) (text :: texts)))
  /\ (forall q, p <> q -> log_all (Some p) (text :: texts) files !! q = files !! q).
Proof.
  split; [|split].
  - unfold log_all. generalize (text :: texts). intros l.
    induction l as [|x l IH]; [reflexivity | exact IH].
  - change (log_all (Some p) (text :: texts) files)
      with (log_all (Some p) texts (log (Some p) text files)).
    erewrite log_all_lines; [|unfold log; apply lookup_insert_eq].
    cbn [map]. now rewrite join_empty_cons, append_assoc.
  - intros q Hpq. now apply log_all_other.
Qed.

(** ** The blank-line rung *)

Lemma last_char_snoc (ctx : string) (c : ascii) :
  last_char (ctx +:+ String c "") = Some c.
Proof.
  induction ctx as [|d ctx IH]; [reflexivity|].
  rewrite append_cons. cbn [last_char]. rewrite IH.
  destruct ctx; reflexivity.
Qed.

Lemma last_char_none (ctx : string) : last_char ctx = None -> ctx = "".
Proof.
  induction ctx as [|d ctx IH]; [reflexivity|].
  cbn [last_char]. destruct ctx as [|e ctx]; [discriminate|].
  intros H. apply IH in H. discriminate.
Qed.

Lemma last_char_some (ctx : string) (c : ascii) :
  last_char ctx = Some c -> exists s, ctx = s +:+ String c "".
Proof.
  induction ctx as [|d ctx IH]; [discriminate|].
  cbn [last_char]. destruct ctx as [|e ctx].
  - intros H. injection H as ->. now exists "".
  - intros H. apply IH in H as [s ->]. now exists (String d s).
Qed.

Lemma matches_blank_two (c : ascii) (x : string) :
  Re.matches Re.Blank (String LF (String c x)) = false.
Proof. reflexivity. Qed.

(** The pieces of [re.split("^$", ...)] after the first, when the text as
    a whole has no line feed at its end, no two at its start and no three
    in a row: none of them is empty or a lone line feed. *)
Lemma split_blank_pieces (s : string) :
  forall ctx,
    ctx +:+ s <> "" ->
    (forall t, ctx +:+ s <> t +:+ nl) ->
    (forall t, ctx +:+ s <> nl +:+ nl +:+ t) ->
    ~ substring (nl +:+ nl +:+ nl) (ctx +:+ s) ->
    Forall (fun part => Re.matches Re.Blank part = false)
      (tail (Re.split_from Re.Blank (last_char ctx) O s)).
Proof.
  induction s as [|c s IH]; intros ctx Hne Hend Hstart Hthree.
  - rewrite append_nil_r in *. cbn [Re.split_from Re.match_at Re.at_line_end].
    rewrite andb_true_r.
    destruct (Re.at_line_start true (last_char ctx)) eqn:E; [|constructor].
    exfalso. unfold Re.at_line_start in E.
    destruct (last_char ctx) as [d|] eqn:El.
    + apply Ascii.eqb_eq in E. subst d.
      apply last_char_some in El as [t ->]. now apply (Hend t).
    + apply last_char_none in El. contradiction.
  - assert (Hstep : ctx +:+ String c s = (ctx +:+ String c "") +:+ s)
      by now rewrite append_assoc.
    specialize (IH (ctx +:+ String c "")).
    rewrite last_char_snoc, <- Hstep in IH.
    specialize (IH Hne Hend Hstart Hthree).
    cbn [Re.split_from Re.match_at].
    pose proof (split_from_nonempty Re.Blank (Some c) O s) as Hrec.
    destruct (Re.at_line_start true (last_char ctx)
              && Re.at_line_end true (String c s)) eqn:E.
    + apply andb_true_iff in E as [Estart Eend].
      cbn [Re.at_line_end orb] in Eend. rewrite andb_true_r in Eend.
      apply Ascii.eqb_eq in Eend. subst c. cbn [tail].
      destruct s as [|c' s'].
      { exfalso. apply (Hend ctx). reflexivity. }
      destruct (ascii_dec c' LF) as [->|Hc'].
      { exfalso. unfold Re.at_line_start in Estart.
        destruct (last_char ctx) as [d|] eqn:El.
        - apply Ascii.eqb_eq in Estart. subst d.
          apply last_char_some in El as [t ->].
          apply Hthree. exists t, s'. now rewrite !append_assoc.
        - apply last_char_none in El. subst ctx. now apply (Hstart s'). }
      cbn [Re.split_from Re.match_at Re.at_line_start Re.at_line_end] in *.
      destruct (Ascii.eqb_spec c' LF) as [|_]; [contradiction|].
      rewrite Ascii.eqb_refl in *. cbn [andb] in *.
      destruct (Re.split_from Re.Blank (Some c') 0 s') as [|x rest];
        cbn [Re.push tail] in *.
      * repeat constructor.
      * constructor; [apply matches_blank_two | exact IH].
    + destruct (Re.split_from Re.Blank (Some c) 0 s) as [|x rest];
        [contradiction|].
      exact IH.
Qed.

(** X14.  Under [^$] a single blank line does not split: a text that is
    not empty, does not end with a line feed, does not start with two
    line feeds and has no three line feeds in a row stays in one part. *)
Theorem single_blank_lines_do_not_split (text : string) :
  text <> "" ->
  (forall t, text <> t +:+ nl) ->
  (forall t, text <> nl +:+ nl +:+ t) ->
  ~ substring (nl +:+ nl +:+ nl) text ->
  split_parts Re.Blank text = [text].
Proof.
  intros Hne Hend Hstart Hthree.
  assert (Hjoin : join "" (split_parts Re.Blank text) = text)
    by (unfold split_parts, Re.split;
        now rewrite recombine_join, split_from_join by (simpl; auto using Nat.le_0_l)).
  pose proof (split_blank_pieces text "" Hne Hend Hstart Hthree) as Hall.
  cbn [last_char] in Hall.
  unfold split_parts, Re.split in *.
  pose proof (split_from_nonempty Re.Blank None O text) as Hpieces.
  destruct (Re.split_from Re.Blank None 0 text) as [|x l]; [contradiction|].
  cbn [tail] in Hall. cbn [recombine] in *.
  rewrite bool_decide_eq_true_2, orb_true_r in * by reflexivity.
  cbn [app] in *.
  pose proof (recombine_no_match Re.Blank l [x] Hall ltac:(discriminate)) as Hlen.
  destruct (recombine Re.Blank l [x]) as [|y [|z r]]; try discriminate.
  f_equal. exact Hjoin.
Qed.

End Program.

(** * The program with its own table, and the examples *)

Import Fixtures.

(** C4.  The two registered models have the budgets 8192 and 4097 and a
    lookup changes nothing; for any other name the lookup fails with the
    [KeyError] of Python's dictionaries, the specification's
    UnknownModelError, and [summarize] and [commit_message] end with
    that error at once, without any request to the LLM. *)
Theorem budget_lookup (name : string) llm_ask get_num_tokens text splitre
    fuel diff prompt tr :
  name <> "gpt-4" -> name <> "gpt-3.5-turbo" ->
  max_token_count !! "gpt-4" = Some 8192
  /\ max_token_count !! "gpt-3.5-turbo" = Some 4097
  /\ budget max_token_count "gpt-4" tr = (Ok 8192, tr)
  /\ budget max_token_count "gpt-3.5-turbo" tr = (Ok 4097, tr)
  /\ max_token_count !! name = None
  /\ budget max_token_count name tr = (Raise (KeyError name), tr)
  /\ summarize llm_ask get_num_tokens max_token_count name text splitre prompt tr
     = (Raise (KeyError name), tr)
  /\ commit_message llm_ask get_num_tokens max_token_count name fuel diff prompt tr
     = (Raise (KeyError name),
        tr ++ [Info_tokens (get_num_tokens (prompt +:+ diff))]).
Proof.
  intros H4 H35.
  assert (Hnone : max_token_count !! name = None).
  { unfold max_token_count.
    rewrite lookup_insert_ne by congruence.
    apply lookup_singleton_ne. congruence. }
  repeat split; try reflexivity; try exact Hnone.
  - now apply budget_missing.
  - now apply summarize_no_budget.
  - unfold commit_message, bind, emit.
    now rewrite (budget_missing _ _ _ Hnone).
Qed.

(** A model that is not in the table. *)
Lemma budget_lookup_witness :
  max_token_count !! "gpt-5" = None
  /\ budget max_token_count "gpt-5" [] = (Raise (KeyError "gpt-5"), [])
  /\ commit_message terse char_count max_token_count "gpt-5" 0 small_diff commit_prompt []
     = (Raise (KeyError "gpt-5"),
        [Info_tokens (char_count (commit_prompt +:+ small_diff))]).
Proof.
  pose proof (budget_lookup "gpt-5" terse char_count small_diff default_splitre
                O small_diff commit_prompt []
                ltac:(discriminate) ltac:(discriminate))
    as (_ & _ & _ & _ & Hnone & Hbudget & _ & Hcommit).
  exact (conj Hnone (conj Hbudget Hcommit)).
Defined.

(** A small diff goes to the LLM in one request; a long line does not. *)
Lemma under_budget_single_ask_witness :
  commit_message terse char_count max_token_count gpt35 0 small_diff commit_prompt []
  = (Ok "* changes",
     [Info_tokens (char_count (commit_prompt +:+ small_diff));
      Info_sending (commit_prompt +:+ small_diff);
      Ask (commit_prompt +:+ small_diff)])
  /\ summarize terse char_count max_token_count gpt35 small_diff default_splitre
       summarize_prompt []
     = (Ok ["* changes"], [Ask (summarize_prompt +:+ small_diff)])
  /\ exists evs,
       snd (commit_message terse char_count max_token_count gpt35 0 long_line
              commit_prompt [])
       = [Info_tokens (char_count (commit_prompt +:+ long_line));
          Warning_too_long (char_count (commit_prompt +:+ long_line))] ++ evs.
Proof.
  pose proof (under_budget_single_ask terse char_count max_token_count gpt35
                4097 O small_diff small_diff default_splitre commit_prompt []
                eq_refl) as H.
  cbv zeta in H. destruct H as (Hcommit & _ & _ & _).
  pose proof (under_budget_single_ask terse char_count max_token_count gpt35
                4097 O small_diff small_diff default_splitre summarize_prompt []
                eq_refl) as H.
  cbv zeta in H. destruct H as (_ & Hsum & _ & _).
  pose proof (under_budget_single_ask terse char_count max_token_count gpt35
                4097 O long_line long_line default_splitre commit_prompt []
                eq_refl) as H.
  cbv zeta in H. destruct H as (_ & _ & Hlong & _).
  split; [apply Hcommit; count|].
  split; [apply Hsum; count|].
  apply Hlong; count.
Defined.

(** The specification's example: three parts of five characters each and
    a budget of 12. *)
Lemma greedy_chunk_assembly_witness :
  ChunkAssembler char_count 12 ["aaaaa"; "bbbbb"; "ccccc"]
  = [["aaaaa"; "bbbbb"]; ["ccccc"]]
  /\ loop_body terse char_count tiny_table "tiny" (fun _ => ret []) ""
       (LoopState ["aaaaa"] 5 []) "bbbbb" []
     = (Ok (LoopState ["aaaaa"; "bbbbb"] 10 []), [])
  /\ loop_body terse char_count tiny_table "tiny" (fun _ => ret []) ""
       (LoopState ["aaaaa"; "bbbbb"] 10 []) "ccccc" []
     = (Ok (LoopState ["ccccc"] 5 ["* changes"]), [Ask "aaaaabbbbb"])
  /\ for_parts terse char_count tiny_table "tiny" (fun _ => ret []) ""
       ["bbbbb"; "ccccc"] (LoopState ["aaaaa"] 5 []) []
     = (Ok (LoopState ["ccccc"] 5 ["* changes"]), [Ask "aaaaabbbbb"]).
Proof.
  pose proof (greedy_chunk_assembly terse char_count tiny_table "tiny" 12
                (fun _ => ret []) "" [] eq_refl)
    as (Hopen & Hclose & _ & Hexample).
  destruct (Hexample "aaaaa" "bbbbb" "ccccc" eq_refl eq_refl eq_refl eq_refl)
    as [Hchunks Hloop].
  split; [exact Hchunks|].
  split; [exact (Hopen (LoopState ["aaaaa"] 5 []) "bbbbb" ltac:(count))|].
  split.
  - etransitivity;
      [exact (Hclose (LoopState ["aaaaa"; "bbbbb"] 10 []) "ccccc" ltac:(count))|].
    vm_compute. reflexivity.
  - etransitivity; [exact Hloop|]. vm_compute. reflexivity.
Defined.

(** The default ladder has three rungs; three frames are enough. *)
Lemma recursion_depth_bounded_witness :
  summarize_at terse char_count max_token_count gpt35 3 long_then_header
    default_splitre summarize_prompt []
  = summarize terse char_count max_token_count gpt35 long_then_header
      default_splitre summarize_prompt []
  /\ fst (summarize_at terse char_count max_token_count gpt35 3 long_then_header
            default_splitre summarize_prompt []) <> OutOfFuel.
Proof.
  pose proof (recursion_depth_bounded terse char_count max_token_count gpt35
                default_splitre 3 long_then_header summarize_prompt []
                ltac:(simpl; lia)) as (Heq & Hdone & _).
  exact (conj Heq Hdone).
Defined.

(** C10.  There is a text over the budget that the first pattern of the
    ladder leaves in one part, and for it [summarize] returns no summary,
    makes no request and raises nothing. *)
Theorem single_part_returns_nothing :
  exists (get_num_tokens : string -> Z) (model text prompt : string)
         (p : Re.pattern) (splitre' : list Re.pattern) (b : Z),
    max_token_count !! model = Some b
    /\ b < get_num_tokens (prompt +:+ text)
    /\ split_parts p text = [text]
    /\ forall llm_ask tr,
         summarize llm_ask get_num_tokens max_token_count model text
           (p :: splitre') prompt tr = (Ok [], tr).
Proof.
  exists char_count, gpt35, long_line, summarize_prompt, Re.Diff,
    [Re.Blank; Re.Newline], 4097.
  assert (Hparts : split_parts Re.Diff long_line = [long_line]) by count.
  split; [reflexivity|]. split; [count|]. split; [exact Hparts|].
  intros llm_ask tr.
  eapply (summarize_single_part llm_ask char_count max_token_count gpt35 4097);
    [reflexivity | count | exact Hparts].
Qed.

(** C2 fails.  Under ["\n"] the parts of two lines are one part without
    the line feed, whatever they are joined with; under [^(diff )] a text
    that starts with a header has an empty first part. *)
Lemma newline_rung_loses_text :
  split_parts Re.Newline ("a" +:+ nl +:+ "b") = ["ab"]
  /\ join "" (split_parts Re.Newline ("a" +:+ nl +:+ "b")) <> "a" +:+ nl +:+ "b"
  /\ join nl (split_parts Re.Newline ("a" +:+ nl +:+ "b")) <> "a" +:+ nl +:+ "b"
  /\ split_parts Re.Diff "diff --git a/x b/x" = [""; "diff --git a/x b/x"].
Proof.
  repeat split; try reflexivity; vm_compute; discriminate.
Qed.

(** C3 fails.  A single line over the budget cannot be split by any
    rung.  On the last rung alone and on the whole ladder [summarize]
    returns the empty list for it, with no exception and no request (the
    whole ladder never raises [IndexError], see
    [default_ladder_in_range]); with no rung left the exception is
    Python's [IndexError]. *)
Lemma atomic_part_dropped_silently :
  4097 < char_count long_line
  /\ 4097 < char_count (summarize_prompt +:+ long_line)
  /\ split_parts Re.Newline long_line = [long_line]
  /\ summarize terse char_count max_token_count gpt35 long_line [Re.Newline]
       summarize_prompt [] = (Ok [], [])
  /\ summarize terse char_count max_token_count gpt35 long_line default_splitre
       summarize_prompt [] = (Ok [], [])
  /\ summarize terse char_count max_token_count gpt35 long_line []
       summarize_prompt [] = (Raise IndexError, []).
Proof. repeat split; count. Qed.

(** An over-budget line with the empty ladder, and the same line as the
    chunk that a pass on [[^(diff )]] alone closes. *)
Lemma empty_ladder_index_error_witness :
  summarize terse char_count max_token_count gpt35 (long_line +:+ nl) []
    summarize_prompt [] = (Raise IndexError, [])
  /\ exists tr',
       summarize terse char_count max_token_count gpt35 long_then_header [Re.Diff]
         summarize_prompt [] = (Raise IndexError, tr').
Proof.
  pose proof (empty_ladder_index_error terse char_count max_token_count gpt35
                4097 (long_line +:+ nl) summarize_prompt [] eq_refl
                ltac:(count)) as [Hempty Hpass].
  split; [exact Hempty|].
  apply (Hpass Re.Diff long_then_header [long_line +:+ nl]).
  - count.
  - vm_compute. left. reflexivity.
  - count.
  - count.
Defined.

(** C1 fails on the code.  Two files give three parts and two chunks;
    the pass returns one summary, for the first file, and the second file
    is in no request. *)
Theorem last_chunk_never_summarized :
  4097 < char_count (summarize_prompt +:+ two_files)
  /\ split_parts Re.Diff two_files
     = [""; file_diff "one" 3000 "+"; file_diff "two" 3000 "-"]
  /\ ChunkAssembler char_count 4097 (split_parts Re.Diff two_files)
     = [[""; file_diff "one" 3000 "+"]; [file_diff "two" 3000 "-"]]
  /\ summarize terse char_count max_token_count gpt35 two_files default_splitre
       summarize_prompt []
     = (Ok ["* changes"], [Ask (summarize_prompt +:+ file_diff "one" 3000 "+")]).
Proof. repeat split; count. Qed.

(** C8 fails on the code.  The closed chunk has 4084 tokens, within the
    budget of 4097, and goes to the LLM with the prompt in a request of
    4153 tokens. *)
Theorem over_budget_request_sent :
  char_count nearly_full = 4084
  /\ char_count (summarize_prompt +:+ nearly_full) = 4153
  /\ split_parts Re.Diff (nearly_full +:+ second_header)
     = [""; nearly_full; second_header]
  /\ summarize terse char_count max_token_count gpt35
       (nearly_full +:+ second_header) default_splitre summarize_prompt []
     = (Ok ["* changes"], [Ask (summarize_prompt +:+ nearly_full)]).
Proof. repeat split; count. Qed.

(** None of the answers of [staged] is the heading. *)
Lemma staged_no_heading history query : staged history query <> more_detail.
Proof.
  intros E.
  apply (f_equal (fun text => match text with
                              | String c _ => Some c
                              | EmptyString => None
                              end)) in E.
  unfold staged in E.
  destruct (asked history) as [|[|[|[|n]]]]; vm_compute in E; discriminate.
Qed.

(** Three files, an LLM with long answers: the summaries of the first
    pass are compressed twice, so there are three passes and three
    headings. *)
Lemma layered_document_witness :
  let tcount := char_count (commit_prompt +:+ three_files) in
  let sections :=
    ["Change everything"; "* every change"; more_detail; longer_answer;
     more_detail; more_detail; long_answer; long_answer] in
  commit_message staged char_count max_token_count gpt35 2 three_files
    commit_prompt []
  = (Ok (join (nl +:+ nl) sections),
     [Info_tokens tcount; Warning_too_long tcount;
      Ask (summarize_prompt +:+ file_diff "one" 3000 "+");
      Ask (summarize_prompt +:+ file_diff "two" 3000 "-");
      Ask (compress_prompt +:+ long_answer +:+ nl +:+ nl);
      Ask (compress_prompt +:+ "");
      Ask (commit_prompt +:+ "* every change")])
  /\ headings sections = 3%nat.
Proof.
  intros tcount sections.
  set (tr1 := [Info_tokens tcount; Warning_too_long tcount;
               Ask (summarize_prompt +:+ file_diff "one" 3000 "+");
               Ask (summarize_prompt +:+ file_diff "two" 3000 "-")]).
  set (tr1' := tr1 ++ [Ask (compress_prompt +:+ long_answer +:+ nl +:+ nl)]).
  set (tr2 := tr1' ++ [Ask (compress_prompt +:+ "")]).
  assert (Hsum : summarize staged char_count max_token_count gpt35 three_files
                   default_splitre summarize_prompt
                   ([] ++ [Info_tokens tcount; Warning_too_long tcount])
                 = (Ok [long_answer; long_answer], tr1)) by count.
  assert (Hrun : compression_run staged char_count max_token_count gpt35 4097
                   commit_prompt (join (nl +:+ nl) [long_answer; long_answer]) tr1
                   [[longer_answer]; ["* every change"]] "* every change" tr2).
  { split; [count|]. exists tr1'. split; [count|].
    split; [count|]. exists tr2. split; [count|].
    split; reflexivity. }
  pose proof (layered_document staged char_count max_token_count gpt35 4097 2
                three_files commit_prompt [] [long_answer; long_answer] tr1
                [[longer_answer]; ["* every change"]] "* every change" tr2
                eq_refl ltac:(count) Hsum Hrun ltac:(count) ltac:(count)) as H.
  cbv zeta in H. destruct H as (Hdoc & _ & Hheadings & _).
  split.
  - etransitivity; [exact Hdoc|]. vm_compute. reflexivity.
  - etransitivity; [|exact (Hheadings staged_no_heading)]. vm_compute. reflexivity.
Defined.

(** * Further properties, with the program's own table *)

(** X13.  [main] always runs [commit_message] with a model that is in
    the table, so it never ends with [KeyError] or [IndexError].  For a
    diff of fewer than five characters it prints "Empty diff." and exits
    with 1 without any request; for any other diff, when
    [commit_message] returns, it logs the message, prints it wrapped,
    prints the counter unless [--quiet] was given, and exits with 0. *)
Theorem main_exit_codes llm_ask_of tokens_of splitlines wrap counter_string
    (args : arguments) (diff : string) (fuel : nat) :
  let run := fun model =>
    commit_message (llm_ask_of model) (tokens_of model) max_token_count model in
  let model := if gpt4 args then "gpt-4" else "gpt-3.5-turbo" in
  let result := main run splitlines wrap counter_string args diff fuel in
  is_Some (max_token_count !! model)
  /\ ((py_len diff < 5)%nat -> result = (Ok 1, [Print "Empty diff."]))
  /\ (forall e, fst result <> Raise e)
  /\ ((5 <= py_len diff)%nat ->
      forall code out,
        result = (Ok code, out) ->
        code = 0
        /\ exists message tr,
             run model fuel diff (prompt args) [] = (Ok message, tr)
             /\ out = [Log_args] ++ map Core tr
                      ++ [Log_returned message;
                          Print (wrap_message splitlines wrap message)]
                      ++ (if quiet args then []
                          else [Print ("(" +:+ counter_string tr +:+ ")")])).
Proof.
  intros run model result.
  assert (Hb : exists b, max_token_count !! model = Some b)
    by (unfold model; destruct (gpt4 args); eexists; reflexivity).
  destruct Hb as [b Hb].
  split; [rewrite Hb; eauto|]. split; [|split].
  - intros Hlen. unfold result, main.
    apply Nat.ltb_lt in Hlen. now rewrite Hlen.
  - intros e. unfold result, main.
    destruct (py_len diff <? 5)%nat; [discriminate|]. fold model.
    pose proof (no_raise_commit_message (llm_ask_of model) (tokens_of model)
                  max_token_count model b fuel diff (prompt args) Hb []) as Hsafe.
    fold (run model) in Hsafe.
    destruct (run model fuel diff (prompt args) []) as [[message|e'|] tr];
      simpl in *; [discriminate | now destruct (Hsafe e') | discriminate].
  - intros Hlen code out. unfold result, main.
    apply Nat.ltb_ge in Hlen. rewrite Hlen. fold model.
    destruct (run model fuel diff (prompt args) []) as [[message|e'|] tr];
      [|discriminate|discriminate].
    intros H. injection H as <- <-. split; [reflexivity|].
    now exists message, tr.
Qed.

(** The two files of [two_files] start with a header. *)
Lemma diff_header_empty_first_part_witness :
  exists part parts,
    split_parts Re.Diff two_files = "" :: part :: parts
    /\ String.prefix "diff " part = true.
Proof.
  apply diff_header_empty_first_part. vm_compute. reflexivity.
Defined.

(** Three parts of five characters each and a budget of 12. *)
Lemma loop_partitions_parts_witness :
  exists chunks,
    concat chunks = ["aaaaa"; "bbbbb"; "ccccc"]
    /\ chunks <> []
    /\ Forall (fun c => c <> []) chunks
    /\ Forall (fun c => (2 <= length c)%nat -> sum_tokens char_count c < 12) chunks
    /\ boundaries (fun c part => 12 <= sum_tokens char_count c + char_count part)
         chunks
    /\ for_parts terse char_count tiny_table "tiny" (fun _ => ret []) ""
         ["bbbbb"; "ccccc"] (LoopState ["aaaaa"] (char_count "aaaaa") []) []
       = (let* sums' := summarize_chunks terse char_count tiny_table "tiny"
                          (fun _ => ret []) "" (removelast chunks) [] in
          ret (LoopState (List.last chunks [])
                 (sum_tokens char_count (List.last chunks [])) sums')) [].
Proof.
  exact (loop_partitions_parts terse char_count tiny_table "tiny" 12
           (fun _ => ret []) "" "aaaaa" ["bbbbb"; "ccccc"] [] [] eq_refl).
Defined.

(** The pass over two files makes one request and returns its answer. *)
Lemma summaries_answer_requests_witness :
  exists queries,
    [Ask (summarize_prompt +:+ file_diff "one" 3000 "+")] = [] ++ map Ask queries
    /\ ["* changes"] = replay terse [] queries
    /\ length ["* changes"] = length queries.
Proof.
  apply (summaries_answer_requests terse char_count max_token_count gpt35
           default_splitre two_files summarize_prompt []).
  vm_compute. reflexivity.
Defined.

(** Three files: the chunks of the first and of the second file are
    closed and asked about, the third file is not. *)
Lemma one_request_per_closed_chunk_witness :
  summarize terse char_count max_token_count gpt35 three_files default_splitre
    summarize_prompt []
  = (Ok ["* changes"; "* changes"],
     [Ask (summarize_prompt +:+ file_diff "one" 3000 "+");
      Ask (summarize_prompt +:+ file_diff "two" 3000 "-")]).
Proof.
  pose proof (one_request_per_closed_chunk terse char_count max_token_count gpt35
                4097 Re.Diff [Re.Blank; Re.Newline] three_files summarize_prompt []
                eq_refl ltac:(count)) as H.
  cbv zeta in H. etransitivity; [apply H|]; [|vm_compute; reflexivity].
  assert (E : removelast (ChunkAssembler char_count 4097
                            (split_parts Re.Diff three_files))
              = [[""; file_diff "one" 3000 "+"]; [file_diff "two" 3000 "-"]])
    by (vm_compute; reflexivity).
  rewrite E. repeat (constructor; [count|]). constructor.
Defined.

(** The default ladder and a registered model. *)
Lemma registered_model_never_raises_witness :
  (exists l tr',
     summarize terse char_count max_token_count gpt35 long_then_header
       default_splitre summarize_prompt [] = (Ok l, tr'))
  /\ forall e,
       fst (commit_message terse char_count max_token_count gpt35 0 long_line
              commit_prompt []) <> Raise e.
Proof.
  pose proof (registered_model_never_raises terse char_count max_token_count
                gpt35 4097 [Re.Diff; Re.Blank] O long_then_header long_line
                summarize_prompt [] eq_refl) as (_ & Hsum & _).
  pose proof (registered_model_never_raises terse char_count max_token_count
                gpt35 4097 [Re.Diff; Re.Blank] O long_then_header long_line
                commit_prompt [] eq_refl) as (_ & _ & Hcommit).
  exact (conj Hsum Hcommit).
Defined.

(** A long line on the last rung. *)
Lemma newline_rung_returns_nothing_witness :
  summarize terse char_count max_token_count gpt35 long_line [Re.Newline]
    summarize_prompt [] = (Ok [], []).
Proof.
  apply (newline_rung_returns_nothing terse char_count max_token_count gpt35 4097);
    [reflexivity | count].
Defined.

(** Two files: the last request holds the one summary and fits. *)
Lemma last_request_fits_witness :
  exists tr0 body,
    [Info_tokens (char_count (commit_prompt +:+ two_files));
     Warning_too_long (char_count (commit_prompt +:+ two_files));
     Ask (summarize_prompt +:+ file_diff "one" 3000 "+");
     Ask (commit_prompt +:+ "* changes")]
    = tr0 ++ [Ask (commit_prompt +:+ body)]
    /\ (body = two_files
        \/ exists summaries,
             answers terse summaries /\ body = join (nl +:+ nl) summaries)
    /\ char_count (commit_prompt +:+ body) <= 4097
    /\ String.prefix (terse tr0 (commit_prompt +:+ body))
         (join (nl +:+ nl) ["* changes"; more_detail; "* changes"]) = true.
Proof.
  apply (last_request_fits terse char_count max_token_count gpt35 4097 O
           two_files commit_prompt []); [reflexivity|].
  vm_compute. reflexivity.
Defined.

(** One long line: nothing of it reaches the LLM. *)
Lemma unsplit_diff_is_lost_witness :
  let tcount := char_count (commit_prompt +:+ long_line) in
  commit_message terse char_count max_token_count gpt35 0 long_line commit_prompt []
  = (Ok ("* changes" +:+ nl +:+ nl +:+ more_detail),
     [Info_tokens tcount; Warning_too_long tcount; Ask commit_prompt]).
Proof.
  exact (unsplit_diff_is_lost terse char_count max_token_count gpt35 4097 O
           long_line commit_prompt [] long_line eq_refl
           ltac:(count) ltac:(count) ltac:(count) ltac:(count)).
Defined.

(** A first file over the budget: the first request is the bare prompt. *)
Lemma empty_chunk_is_asked_witness :
  (exists evs,
     snd (summarize terse char_count max_token_count gpt35 big_then_small
            default_splitre summarize_prompt [])
     = [] ++ Ask summarize_prompt :: evs)
  /\ (forall l tr',
        summarize terse char_count max_token_count gpt35 big_then_small
          default_splitre summarize_prompt [] = (Ok l, tr') ->
        exists more, l = terse [] summarize_prompt :: more).
Proof.
  apply (empty_chunk_is_asked terse char_count max_token_count gpt35 4097
           [Re.Blank; Re.Newline] big_then_small summarize_prompt []
           (file_diff "one" 5000 "+") [file_diff "two" 5 "-"]);
    count.
Defined.

(** Two lines with one blank line between them. *)
Lemma single_blank_lines_do_not_split_witness :
  split_parts Re.Blank ("a" +:+ nl +:+ nl +:+ "b") = ["a" +:+ nl +:+ nl +:+ "b"].
Proof.
  apply single_blank_lines_do_not_split.
  - discriminate.
  - intros t E. apply (f_equal last_char) in E.
    change (t +:+ nl) with (t +:+ String LF "") in E.
    rewrite last_char_snoc in E. vm_compute in E. discriminate.
  - intros t E. vm_compute in E. discriminate.
  - intros (before & after & E).
    destruct before as [|c1 [|c2 [|c3 [|c4 [|c5 before]]]]]; vm_compute in E;
      discriminate.
Defined.

(** A diff of three characters, and a small diff with [--quiet] off. *)
Lemma main_exit_codes_witness :
  let run := fun model =>
    commit_message terse char_count max_token_count model in
  main run one_line one_line no_counter (ParsedArguments false commit_prompt false)
    "abc" 0 = (Ok 1, [Print "Empty diff."])
  /\ main run one_line one_line no_counter
       (ParsedArguments false commit_prompt false) small_diff 0
     = (Ok 0,
        [Log_args;
         Core (Info_tokens (char_count (commit_prompt +:+ small_diff)));
         Core (Info_sending (commit_prompt +:+ small_diff));
         Core (Ask (commit_prompt +:+ small_diff));
         Log_returned "* changes"; Print "* changes"; Print "()"])
  /\ forall e,
       fst (main run one_line one_line no_counter
              (ParsedArguments true commit_prompt false) long_line 1) <> Raise e.
Proof.
  intros run.
  pose proof (main_exit_codes (fun _ => terse) (fun _ => char_count) one_line
                one_line no_counter (ParsedArguments false commit_prompt false)
                "abc" 0) as H.
  cbv zeta in H. destruct H as (_ & Hempty & _ & _).
  pose proof (main_exit_codes (fun _ => terse) (fun _ => char_count) one_line
                one_line no_counter (ParsedArguments true commit_prompt false)
                long_line 1) as H.
  cbv zeta in H. destruct H as (_ & _ & Hsafe & _).
  split; [apply Hempty; apply Nat.ltb_lt; vm_compute; reflexivity|].
  split; [vm_compute; reflexivity | exact Hsafe].
Defined.
